(** * Rev live-audio assistant: relay, codec and playback scheduler

    A shallow embedding of the TypeScript sources
      - backend/server.ts: the WebSocket relay,
      - the browser client that talks to the relay (the component that
        follows the Vite configuration): [float32ToPCM16Base64],
        [base64ToArrayBuffer] and the playback listener,
      - index.tsx: the browser client that talks to the speech service
        directly,
    followed by the properties of the specification, C1 to C10. *)

From Stdlib Require Import ZArith QArith Qpower String Ascii.
From stdpp Require Import base gmap sets list strings.

Set Warnings "-register-all,-clear-no-such-hyp".

(** ** JSON values and the client message schema *)

Module Wire.

(** What [JSON.parse] returns.  An object is the list of its own
    properties, in order; [JSON.parse] keeps one binding per key. *)
Inductive json : Type :=
| JNull
| JBool (b : bool)
| JNum (q : Q)
| JStr (s : string)
| JArr (items : list json)
| JObj (fields : list (string * json)).

(** Property read [o[k]]; [None] is [undefined]. *)
Fixpoint prop (k : string) (fields : list (string * json)) : option json :=
  match fields with
  | [] => None
  | (k', v) :: rest => if String.eqb k k' then Some v else prop k rest
  end.

(** A frame received from the browser: [JSON.parse(raw.toString())],
    [None] when it throws a [SyntaxError]. *)
Definition RawData := option json.

(** [z.infer<typeof FromClient>] *)
Inductive FromClient : Type :=
| CText (text : string)
| CAudio (base64 : string)
| CReset.

(** [z.string().min(1)] *)
Definition z_string_min1 (v : option json) : option string :=
  match v with
  | Some (JStr s) => if (1 <=? String.length s)%nat then Some s else None
  | _ => None
  end.

(** [FromClient.parse]: a discriminated union on the key [type].  The
    input has to be an object, its discriminator selects one of the three
    object schemas, and that schema checks its remaining keys; keys that
    the schema does not list are stripped.  [None] is a thrown [ZodError]. *)
Definition FromClient_parse (v : json) : option FromClient :=
  match v with
  | JObj fields =>
      match prop "type" fields with
      | Some (JStr tag) =>
          if String.eqb tag "text"
          then CText <$> z_string_min1 (prop "text" fields)
          else if String.eqb tag "audio"
          then CAudio <$> z_string_min1 (prop "base64" fields)
          else if String.eqb tag "reset"
          then Some CReset
          else None
      | _ => None
      end
  | _ => None
  end.

(** The [try] block of the message handler:
    [FromClient.parse(JSON.parse(raw.toString()))]. *)
Definition decode_frame (raw : RawData) : option FromClient :=
  match raw with
  | Some v => FromClient_parse v
  | None => None
  end.

(** Messages the relay sends to the browser, [type ToClient]. *)
Inductive ToClient : Type :=
| Status (message : string)
| Text (text : string)
| Audio (base64 mimeType : string).

End Wire.

(** ** Base64 text framing (platform functions) *)

Module Base64.

Local Open Scope Z_scope.

(** A JavaScript binary string (every code unit below 256) is a Rocq
    [string]; a [Uint8Array] or [Buffer] is the list of its byte values. *)
Definition bytes := list Z.

Definition charCode (c : ascii) : Z := Z.of_N (N_of_ascii c).
Definition fromCharCode (b : Z) : ascii := ascii_of_N (Z.to_N b).

(** [String.fromCharCode(...bytes)] *)
Definition binary_string (bs : bytes) : string :=
  string_of_list_ascii (fromCharCode <$> bs).

(** [bytes[i] = bin.charCodeAt(i)] for every [i] *)
Definition char_codes (bin : string) : bytes :=
  charCode <$> list_ascii_of_string bin.

Definition alphabet : string :=
  "ABCDEFGHIJKLMNOPQRSTUVWXYZabcdefghijklmnopqrstuvwxyz0123456789+/".

Definition digit (i : Z) : ascii :=
  default "="%char (String.get (Z.to_nat i) alphabet).

(** Value of a character of the standard alphabet. *)
Definition sextet (c : ascii) : option Z :=
  let n := charCode c in
  if (65 <=? n) && (n <=? 90) then Some (n - 65)
  else if (97 <=? n) && (n <=? 122) then Some (n - 71)
  else if (48 <=? n) && (n <=? 57) then Some (n + 4)
  else if n =? 43 then Some 62
  else if n =? 47 then Some 63
  else None.

(** [btoa] on the code units of a binary string. *)
Fixpoint encode (bs : bytes) : list ascii :=
  match bs with
  | [] => []
  | [a] =>
      [digit (Z.shiftr a 2); digit (Z.shiftl (Z.land a 3) 4); "="; "="]%char
  | [a; b] =>
      [digit (Z.shiftr a 2);
       digit (Z.lor (Z.shiftl (Z.land a 3) 4) (Z.shiftr b 4));
       digit (Z.shiftl (Z.land b 15) 2); "="%char]
  | a :: b :: c :: rest =>
      digit (Z.shiftr a 2)
      :: digit (Z.lor (Z.shiftl (Z.land a 3) 4) (Z.shiftr b 4))
      :: digit (Z.lor (Z.shiftl (Z.land b 15) 2) (Z.shiftr c 6))
      :: digit (Z.land c 63)
      :: encode rest
  end.

Definition btoa (bin : string) : string :=
  string_of_list_ascii (encode (char_codes bin)).

(** Groups of four sextets give three bytes; a tail of three gives two
    bytes and a tail of two gives one (the spare low bits are dropped). *)
Fixpoint sextets_to_bytes (l : list Z) : bytes :=
  match l with
  | a :: b :: c :: d :: rest =>
      Z.lor (Z.shiftl a 2) (Z.shiftr b 4)
      :: Z.lor (Z.shiftl (Z.land b 15) 4) (Z.shiftr c 2)
      :: Z.lor (Z.shiftl (Z.land c 3) 6) d
      :: sextets_to_bytes rest
  | [a; b; c] =>
      [Z.lor (Z.shiftl a 2) (Z.shiftr b 4);
       Z.lor (Z.shiftl (Z.land b 15) 4) (Z.shiftr c 2)]
  | [a; b] => [Z.lor (Z.shiftl a 2) (Z.shiftr b 4)]
  | _ => []
  end.

Definition is_ascii_whitespace (c : ascii) : bool :=
  let n := charCode c in
  (n =? 9) || (n =? 10) || (n =? 12) || (n =? 13) || (n =? 32).

Definition is_pad (c : ascii) : bool := charCode c =? 61.

(** Remove one or two trailing [=] signs. *)
Definition strip_padding (l : list ascii) : list ascii :=
  match rev l with
  | p :: q :: rest =>
      if is_pad p then (if is_pad q then rev rest else rev (q :: rest)) else l
  | [p] => if is_pad p then [] else l
  | [] => l
  end.

(** [atob]: the forgiving-base64 decode of the HTML standard.  ASCII
    whitespace is removed, padding is removed when the length is a
    multiple of four, a length of 1 modulo 4 and any character outside
    the alphabet are failures ([None]: an [InvalidCharacterError] is
    thrown). *)
Definition atob (data : string) : option string :=
  let d := filter (λ c, is_ascii_whitespace c = false) (list_ascii_of_string data) in
  let d := if (length d mod 4 =? 0)%nat then strip_padding d else d in
  if (length d mod 4 =? 1)%nat then None
  else binary_string <$> (sextets_to_bytes <$> mapM sextet d).

(** Node's [Buffer.from(s, 'base64')]: the decoder never throws.  It also
    reads the URL-safe characters, skips every other character that is
    not in the alphabet, and stops at the first [=]. *)
Definition sextet_node (c : ascii) : option Z :=
  let n := charCode c in
  if n =? 45 then Some 62 else if n =? 95 then Some 63 else sextet c.

Fixpoint until_pad (l : list ascii) : list ascii :=
  match l with
  | [] => []
  | c :: rest => if is_pad c then [] else c :: until_pad rest
  end.

Definition Buffer_from_base64 (s : string) : bytes :=
  sextets_to_bytes (omap sextet_node (until_pad (list_ascii_of_string s))).

End Base64.

(** ** Messages of the remote speech service *)

Module GenAI.

(** The fields of [LiveServerMessage] that the handlers read.  Every
    level is optional, as in the SDK's types. *)
Record Blob := { data : option string; mimeType : option string }.
Record Part := { text : option string; inlineData : option Blob }.
Record Content := { parts : option (list Part) }.
Record ServerContent := { modelTurn : option Content; interrupted : option bool }.
Record LiveServerMessage := { serverContent : option ServerContent }.

(** [m.serverContent?.modelTurn?.parts] *)
Definition turn_parts (m : LiveServerMessage) : option (list Part) :=
  match serverContent m with
  | Some sc =>
      match modelTurn sc with
      | Some turn => parts turn
      | None => None
      end
  | None => None
  end.

(** Truthiness of an optional string: present and not empty. *)
Definition truthy (s : option string) : option string :=
  match s with
  | Some s => if String.eqb s EmptyString then None else Some s
  | None => None
  end.

(** What the relay passes to [session.sendRealtimeInput]. *)
Inductive RealtimeInput : Type :=
| InText (text : string)
| InMedia (blob : Base64.bytes) (type : string).

End GenAI.

(** ** The relay: backend/server.ts *)

Module Relay.
Import Wire GenAI.

(** Which call of [openSession] awaits [client.live.connect]. *)
Inductive Origin : Type := OnAccept | OnReset.

(** One client connection: the variables of the [connection] closure and
    what has been observed of it.  Upstream sessions are numbered by the
    call of [client.live.connect] that creates them. *)
Record Conn := mkConn {
  session : option nat;            (* let session: Session | null *)
  ready : bool;                    (* ws.readyState === ws.OPEN *)
  listening : bool;                (* ws.on('message') and ws.on('close') are registered *)
  awaiting : list (nat * Origin);  (* connect calls that have not settled *)
  connects : nat;                  (* connect calls made so far *)
  live : gset nat;                 (* sessions opened upstream and not closed *)
  closed : list nat;               (* session.close() calls, latest first *)
  toClient : list ToClient;        (* frames sent to the browser, in order *)
  toUpstream : list (nat * RealtimeInput); (* sendRealtimeInput calls, in order *)
  unhandled : list string          (* rejections that no handler catches *)
}.

Definition set_session v c :=
  mkConn v (ready c) (listening c) (awaiting c) (connects c) (live c)
         (closed c) (toClient c) (toUpstream c) (unhandled c).
Definition set_ready v c :=
  mkConn (session c) v (listening c) (awaiting c) (connects c) (live c)
         (closed c) (toClient c) (toUpstream c) (unhandled c).
Definition set_listening v c :=
  mkConn (session c) (ready c) v (awaiting c) (connects c) (live c)
         (closed c) (toClient c) (toUpstream c) (unhandled c).
Definition set_awaiting v c :=
  mkConn (session c) (ready c) (listening c) v (connects c) (live c)
         (closed c) (toClient c) (toUpstream c) (unhandled c).
Definition set_connects v c :=
  mkConn (session c) (ready c) (listening c) (awaiting c) v (live c)
         (closed c) (toClient c) (toUpstream c) (unhandled c).
Definition set_live v c :=
  mkConn (session c) (ready c) (listening c) (awaiting c) (connects c) v
         (closed c) (toClient c) (toUpstream c) (unhandled c).
Definition set_closed v c :=
  mkConn (session c) (ready c) (listening c) (awaiting c) (connects c) (live c)
         v (toClient c) (toUpstream c) (unhandled c).
Definition set_toClient v c :=
  mkConn (session c) (ready c) (listening c) (awaiting c) (connects c) (live c)
         (closed c) v (toUpstream c) (unhandled c).
Definition set_toUpstream v c :=
  mkConn (session c) (ready c) (listening c) (awaiting c) (connects c) (live c)
         (closed c) (toClient c) v (unhandled c).
Definition set_unhandled v c :=
  mkConn (session c) (ready c) (listening c) (awaiting c) (connects c) (live c)
         (closed c) (toClient c) (toUpstream c) v.

(** [const send = (msg) => ws.readyState === ws.OPEN && ws.send(JSON.stringify(msg))] *)
Definition send (msg : ToClient) (c : Conn) : Conn :=
  if ready c then set_toClient (toClient c ++ [msg]) c else c.

(** The body of the [onmessage] callback for one part. *)
Definition forward_part (p : Part) (c : Conn) : Conn :=
  let c :=
    match truthy (text p) with
    | Some t => send (Text t) c
    | None => c
    end in
  match inlineData p with
  | Some blob =>
      match truthy (data blob) with
      | Some d => send (Audio d (default "audio/pcm; rate=24000" (mimeType blob))) c
      | None => c
      end
  | None => c
  end.

(** [for (const p of parts) { ... }] with [parts = ... ?? []] *)
Definition onmessage (m : LiveServerMessage) (c : Conn) : Conn :=
  foldl (λ c p, forward_part p c) c (default [] (turn_parts m)).

(** [session.close()] on session [sid]. *)
Definition close_session (sid : nat) (c : Conn) : Conn :=
  set_closed (sid :: closed c) (set_live (live c ∖ {[sid]}) c).

(** [openSession] up to its [await]: nothing happens when a session is
    held, otherwise [client.live.connect] is called. *)
Definition openSession (o : Origin) (c : Conn) : Conn :=
  match session c with
  | Some _ => c
  | None =>
      set_connects (S (connects c))
        (set_awaiting (awaiting c ++ [(connects c, o)]) c)
  end.

(** The [connection] handler up to the first [await]. *)
Definition accept : Conn :=
  openSession OnAccept
    (mkConn None true false [] 0 ∅ [] [] [] []).

(** [ws.on('message', async (raw) => ...)] *)
Definition on_ws_message (raw : RawData) (c : Conn) : Conn :=
  match session c with
  | None => c
  | Some sid =>
      match decode_frame raw with
      | None => send (Status "Bad client message") c
      | Some CReset =>
          openSession OnReset (set_session None (close_session sid c))
      | Some (CText t) =>
          set_toUpstream (toUpstream c ++ [(sid, InText t)]) c
      | Some (CAudio b64) =>
          set_toUpstream
            (toUpstream c ++ [(sid, InMedia (Base64.Buffer_from_base64 b64) "audio/pcm")]) c
      end
  end.

(** [ws.on('close', () => { try { session?.close(); } catch {} })] *)
Definition on_ws_close (c : Conn) : Conn :=
  match session c with
  | Some sid => close_session sid c
  | None => c
  end.

(** What can happen to a connection after it was accepted. *)
Inductive Event : Type :=
| ConnectOk (sid : nat)                  (* connect call [sid] resolves *)
| ConnectFail (sid : nat) (reason : string)  (* connect call [sid] rejects *)
| WsMessage (raw : RawData)              (* the browser sends a frame *)
| WsClose                                (* the transport closes *)
| UpOpen (sid : nat)                     (* callbacks of session [sid] *)
| UpError (sid : nat) (message : string)
| UpClose (sid : nat) (reason : string)
| UpMessage (sid : nat) (m : LiveServerMessage).

Definition origin_of (sid : nat) (c : Conn) : option Origin :=
  snd <$> head (filter (λ p, p.1 = sid) (awaiting c)).

Definition settle (sid : nat) (c : Conn) : Conn :=
  set_awaiting (filter (λ p, p.1 ≠ sid) (awaiting c)) c.

(** The continuation of [openSession] after its [await], followed by the
    rest of the code that called it.  After the first call the two
    listeners are registered, whether or not it failed; a failure of the
    call made by a reset is caught by nothing. *)
Definition on_connect_ok (sid : nat) (o : Origin) (c : Conn) : Conn :=
  let c := set_live (live c ∪ {[sid]}) (set_session (Some sid) c) in
  let c := send (Status "Session ready") c in
  match o with
  | OnAccept => set_listening true c
  | OnReset => c
  end.

Definition on_connect_fail (reason : string) (o : Origin) (c : Conn) : Conn :=
  match o with
  | OnAccept =>
      set_listening true
        (send (Status ("Failed to open session: " +:+ reason)) c)
  | OnReset => set_unhandled (unhandled c ++ [reason]) c
  end.

Definition step (c : Conn) (ev : Event) : Conn :=
  match ev with
  | ConnectOk sid =>
      match origin_of sid c with
      | Some o => on_connect_ok sid o (settle sid c)
      | None => c
      end
  | ConnectFail sid reason =>
      match origin_of sid c with
      | Some o => on_connect_fail reason o (settle sid c)
      | None => c
      end
  | WsMessage raw => if listening c then on_ws_message raw c else c
  | WsClose =>
      set_ready false (if listening c then on_ws_close c else c)
  | UpOpen sid =>
      if (sid <? connects c)%nat then send (Status "Upstream opened") c else c
  | UpError sid msg =>
      if (sid <? connects c)%nat then send (Status ("Upstream error: " +:+ msg)) c else c
  | UpClose sid reason =>
      if (sid <? connects c)%nat
      then send (Status ("Upstream closed: " +:+ reason))
             (set_live (live c ∖ {[sid]}) c)
      else c
  | UpMessage sid m =>
      if (sid <? connects c)%nat then onmessage m c else c
  end.

Definition run (evs : list Event) : Conn := foldl step accept evs.

End Relay.

(** ** JavaScript numbers *)

Module Num.

Local Open Scope Q_scope.

(** A JavaScript number is NaN, an infinity or a finite value.  The
    finite values are rational, and the arithmetic below is the exact
    one: where the modelled code multiplies, one factor is an element of a
    [Float32Array] (24 bits of mantissa) and the other is an integer below
    [2^15], so the double-precision product is the exact product (lemma
    [scale_is_exact]). *)
Inductive number : Type :=
| NaN
| Inf (negative : bool)
| Fin (q : Q).

(** [a < b]; false when either side is NaN. *)
Definition lt (a b : number) : bool :=
  match a, b with
  | NaN, _ | _, NaN => false
  | Inf true, Inf true => false
  | Inf true, _ => true
  | _, Inf true => false
  | Inf false, _ => false
  | _, Inf false => true
  | Fin x, Fin y =>
      match x ?= y with
      | Lt => true
      | _ => false
      end
  end.

(** [Math.min(a, b)] and [Math.max(a, b)]: NaN if either argument is. *)
Definition Math_min (a b : number) : number :=
  match a, b with
  | NaN, _ | _, NaN => NaN
  | _, _ => if lt b a then b else a
  end.

Definition Math_max (a b : number) : number :=
  match a, b with
  | NaN, _ | _, NaN => NaN
  | _, _ => if lt a b then b else a
  end.

Definition is_zero (q : Q) : bool := (Qnum q =? 0)%Z.
Definition is_negative (q : Q) : bool := (Qnum q <? 0)%Z.

(** [a * b] *)
Definition mul (a b : number) : number :=
  match a, b with
  | NaN, _ | _, NaN => NaN
  | Fin x, Fin y => Fin (x * y)
  | Inf s, Inf t => Inf (xorb s t)
  | Inf s, Fin y | Fin y, Inf s =>
      if is_zero y then NaN else Inf (xorb s (is_negative y))
  end.

(** Rounding toward zero. *)
Definition truncate (q : Q) : Z := Z.quot (Qnum q) (Z.pos (Qden q)).

(** The conversion applied by a store into an [Int16Array]: NaN and the
    infinities become 0, a finite value is truncated and wrapped into
    sixteen bits, read as a signed integer. *)
Definition wrap16 (z : Z) : Z := ((z + 32768) mod 65536 - 32768)%Z.

Definition ToInt16 (x : number) : Z :=
  match x with
  | Fin q => wrap16 (truncate q)
  | _ => 0%Z
  end.

(** The value [m * 2^e] of a binary floating-point number with mantissa
    [m] and exponent [e], negated when [negative]. *)
Definition float_value (negative : bool) (m e : Z) : Q :=
  (if negative then -1 else 1) * inject_Z m * Qpower 2 e.

End Num.

(** ** The PCM codec *)

Module Codec.
Import Num.

Local Open Scope Z_scope.

(** The body of the loop of [float32ToPCM16Base64]:
    [let s = Math.max(-1, Math.min(1, float32[i]));
     out[i] = s < 0 ? s * 0x8000 : s * 0x7fff;] *)
Definition clamp (x : number) : number :=
  Math_max (Fin (-1)) (Math_min (Fin 1) x).

Definition scale (s : number) : number :=
  if lt s (Fin 0) then mul s (Fin 32768) else mul s (Fin 32767).

Definition sample16 (x : number) : Z := ToInt16 (scale (clamp x)).

(** [new Uint8Array(out.buffer)]: the two bytes of each 16-bit element,
    low byte first (typed arrays use the byte order of the platform,
    which is little-endian on the platforms browsers run on). *)
Definition le_bytes (v : Z) : Base64.bytes :=
  [Z.land v 255; Z.land (Z.shiftr v 8) 255].

Definition pcm16_bytes (float32 : list number) : Base64.bytes :=
  (sample16 <$> float32) ≫= le_bytes.

Definition float32ToPCM16Base64 (float32 : list number) : string :=
  Base64.btoa (Base64.binary_string (pcm16_bytes float32)).

(** [base64ToArrayBuffer]: [atob] throws on a malformed string, and so
    does this function ([None]). *)
Definition base64ToArrayBuffer (base64 : string) : option Base64.bytes :=
  Base64.char_codes <$> Base64.atob base64.

(** The signed 16-bit integer stored in two bytes, low byte first. *)
Definition int16_le (lo hi : Z) : Z := wrap16 (lo + 256 * hi).

(** Modelled from the spec: [decode] of the PCM codec (the repository's
    [decodeAudioData] in [utils.ts], which is not among the sources).
    "inverse mapping scaled by 32768.  Fails with [MalformedAudioError] if
    byte length is not a multiple of 2."  [None] is that failure. *)
Fixpoint decode (bs : Base64.bytes) : option (list Q) :=
  match bs with
  | [] => Some []
  | [_] => None
  | lo :: hi :: rest =>
      cons (inject_Z (int16_le lo hi) / 32768)%Q <$> decode rest
  end.

End Codec.

(** ** The playback scheduler of the browser clients *)

Module Player.

Local Open Scope Q_scope.

(** The fields [nextStartTime] and [sources] of [GdmLiveAudio], and what
    the audio graph was asked to do.  An [AudioBufferSourceNode] is named
    by the number of the [createBufferSource] call that made it. *)
Record Scheduler := mkScheduler {
  nextStartTime : Q;
  sources : gset nat;                (* this.sources *)
  made : nat;                        (* createBufferSource calls so far *)
  started : list (nat * Q * Q);      (* source.start(t): node, t, buffer.duration *)
  stopped : gset nat                 (* nodes on which stop() was called *)
}.

(** [Math.max(a, b)] on finite numbers. *)
Definition Math_max (a b : Q) : Q :=
  match a ?= b with
  | Lt => b
  | _ => a
  end.

(** [this.nextStartTime = Math.max(this.nextStartTime, ctx.currentTime)] *)
Definition anchor (now : Q) (s : Scheduler) : Scheduler :=
  mkScheduler (Math_max (nextStartTime s) now) (sources s) (made s)
              (started s) (stopped s).

(** [const source = ctx.createBufferSource(); source.buffer = audioBuffer;
     source.connect(this.outputNode);
     source.addEventListener('ended', () => this.sources.delete(source));
     source.start(this.nextStartTime);
     this.nextStartTime += audioBuffer.duration;
     this.sources.add(source);] *)
Definition schedule (duration : Q) (s : Scheduler) : Scheduler :=
  mkScheduler (nextStartTime s + duration)
              (sources s ∪ {[made s]})
              (S (made s))
              (started s ++ [(made s, nextStartTime s, duration)])
              (stopped s).

(** One decoded buffer enqueued at clock time [now]. *)
Definition enqueue (duration now : Q) (s : Scheduler) : Scheduler :=
  schedule duration (anchor now s).

(** The [ended] listener of node [src]. *)
Definition ended (src : nat) (s : Scheduler) : Scheduler :=
  mkScheduler (nextStartTime s) (sources s ∖ {[src]}) (made s)
              (started s) (stopped s).

(** [try { source.stop(); } catch {}  this.sources.delete(source);] *)
Definition stop_and_delete (src : nat) (s : Scheduler) : Scheduler :=
  mkScheduler (nextStartTime s) (sources s ∖ {[src]}) (made s)
              (started s) (stopped s ∪ {[src]}).

(** [for (const source of this.sources) { ... }  this.nextStartTime = 0;]
    The iterator of a [Set] visits every element that is in the set when
    the loop starts, also while the body deletes them. *)
Definition interrupt (s : Scheduler) : Scheduler :=
  let s' := set_fold stop_and_delete s (sources s) in
  mkScheduler 0 (sources s') (made s') (started s') (stopped s').

(** A run of [enqueue] calls, each with its buffer's duration and the
    clock time at which it is made. *)
Definition enqueue_all (calls : list (Q * Q)) (s : Scheduler) : Scheduler :=
  foldl (λ s call, enqueue call.1 call.2 s) s calls.

End Player.

(** ** The direct client: index.tsx *)

Module DirectClient.
Import GenAI Player.

(** [String.prototype.toLowerCase] on the ASCII letters (the only
    characters whose lower case is a letter of the keyword). *)
Definition lower (c : ascii) : ascii :=
  let n := N_of_ascii c in
  if ((65 <=? n) && (n <=? 90))%N then ascii_of_N (n + 32) else c.

Fixpoint toLowerCase (s : string) : string :=
  match s with
  | EmptyString => EmptyString
  | String c rest => String (lower c) (toLowerCase rest)
  end.

(** [hay.includes(needle)] *)
Fixpoint includes (needle hay : string) : bool :=
  String.prefix needle hay
  || match hay with
     | EmptyString => false
     | String _ rest => includes needle rest
     end.

Record Client := mkClient {
  player : Scheduler;
  status : string;
  error : string;
  (* handlers stopped at [await decodeAudioData(...)], oldest first *)
  waiting : list LiveServerMessage
}.

Definition updateStatus (msg : string) (d : Client) : Client :=
  mkClient (player d) msg (error d) (waiting d).

Definition with_player (f : Scheduler → Scheduler) (d : Client) : Client :=
  mkClient (f (player d)) (status d) (error d) (waiting d).

(** [message.serverContent?.modelTurn?.parts?.[0]] *)
Definition first_part (m : LiveServerMessage) : option Part :=
  match turn_parts m with
  | Some (p :: _) => Some p
  | _ => None
  end.

(** [...?.[0]?.text || ''] *)
Definition textResponse (m : LiveServerMessage) : string :=
  match first_part m with
  | Some p => default EmptyString (text p)
  | None => EmptyString
  end.

(** [message.serverContent?.interrupted] as a condition. *)
Definition is_interrupted (m : LiveServerMessage) : bool :=
  match serverContent m with
  | Some sc => default false (interrupted sc)
  | None => false
  end.

(** The end of the handler: [if (message.serverContent?.interrupted) ...] *)
Definition finish (m : LiveServerMessage) (d : Client) : Client :=
  if is_interrupted m then with_player interrupt d else d.

(** The [onmessage] callback from its start to its [await], or to its end
    when it does not reach the [await].  [now] is
    [outputAudioContext.currentTime]. *)
Definition onmessage_begin (now : Q) (m : LiveServerMessage) (d : Client) : Client :=
  if negb (includes "revolt" (toLowerCase (textResponse m)))
  then updateStatus "Blocked off-topic response" d
  else
    match first_part m ≫= inlineData with
    | Some audio =>
        let d := with_player (anchor now) d in
        mkClient (player d) (status d) (error d) (waiting d ++ [m])
    | None => finish m d
    end.

(** The same callback from its [await] on.  [decodeAudioData] and
    [decode] come from [utils.ts]; their result is the duration of the
    decoded buffer, or [None] when one of them throws, which ends the
    handler. *)
Definition onmessage_resume (decoded : option Q) (m : LiveServerMessage)
    (d : Client) : Client :=
  match decoded with
  | Some duration => finish m (with_player (schedule duration) d)
  | None => d
  end.

Inductive Event : Type :=
| Message (now : Q) (m : LiveServerMessage)   (* the session delivers [m] *)
| Decoded (decoded : option Q)                (* the oldest waiting handler resumes *)
| Ended (src : nat).                          (* node [src] finished playing *)

Definition step (d : Client) (ev : Event) : Client :=
  match ev with
  | Message now m => onmessage_begin now m d
  | Decoded decoded =>
      match waiting d with
      | m :: rest =>
          onmessage_resume decoded m
            (mkClient (player d) (status d) (error d) rest)
      | [] => d
      end
  | Ended src => with_player (ended src) d
  end.

(** The client once [initAudio] has run at clock time [now]. *)
Definition init (now : Q) : Client :=
  mkClient (mkScheduler now ∅ 0 [] ∅) EmptyString EmptyString [].

End DirectClient.

(** ** The WebSocket client: the audio branch of its listener *)

Module WsClient.
Import Player.

(** [if (msg.type === 'audio' && msg.base64)] up to the [await]:
    [base64ToArrayBuffer] may throw, and the [catch] of the listener
    swallows it.  The result is the buffer handed to
    [outputAudioContext.decodeAudioData]. *)
Definition audio_begin (base64 : string) : option Base64.bytes :=
  if String.eqb base64 EmptyString then None
  else Codec.base64ToArrayBuffer base64.

(** The rest of the branch, once the buffer is decoded; a rejected
    decoding is swallowed by the same [catch]. *)
Definition audio_resume (decoded : option Q) (now : Q) (s : Scheduler) : Scheduler :=
  match decoded with
  | Some duration => enqueue duration now s
  | None => s
  end.

End WsClient.
(** ** The WebSocket client: its state, its socket and its recorder

    The component of visual.ts as a whole: the listeners of [init], the
    three buttons and the capture callback.  A [MediaStream], the source
    node made from it and the script processor made with it are named by
    the number of the [getUserMedia] call that resolved with the stream. *)

Module WsApp.
Import Wire Num Codec Player.

Record App := mkApp {
  isRecording : bool;  (* @state() isRecording *)
  status : string;  (* @state() status *)
  error : string;  (* @state() error *)
  text : string;  (* @state() text *)
  mediaStream : option nat;  (* this.mediaStream *)
  sourceNode : option nat;  (* this.sourceNode *)
  scriptProcessorNode : option nat;  (* this.scriptProcessorNode *)
  player : Scheduler;  (* nextStartTime, sources and the output graph *)
  ws_open : bool;  (* this.ws.readyState === this.ws.OPEN *)
  sent : list json;  (* values given to ws.send(JSON.stringify(...)), in order *)
  resuming : nat;  (* startRecording calls at await inputAudioContext.resume() *)
  requesting : nat;  (* startRecording calls at await getUserMedia(...) *)
  overlapped : bool;  (* a start passed its guard while another one was waiting *)
  decoding : list Base64.bytes;  (* buffers at await decodeAudioData(ab) *)
  granted : nat;  (* streams that getUserMedia has resolved with *)
  tracks_stopped : gset nat;  (* streams whose tracks were stopped *)
  plugged : gset nat;  (* source nodes that are connected *)
  wired : gset nat  (* script processors that are connected *)
}.

Definition set_isRecording v a :=
  mkApp v (status a) (error a) (text a) (mediaStream a) (sourceNode a)
        (scriptProcessorNode a) (player a) (ws_open a) (sent a) (resuming a)
        (requesting a) (overlapped a) (decoding a) (granted a)
        (tracks_stopped a) (plugged a) (wired a).
Definition set_status v a :=
  mkApp (isRecording a) v (error a) (text a) (mediaStream a) (sourceNode a)
        (scriptProcessorNode a) (player a) (ws_open a) (sent a) (resuming a)
        (requesting a) (overlapped a) (decoding a) (granted a)
        (tracks_stopped a) (plugged a) (wired a).
Definition set_error v a :=
  mkApp (isRecording a) (status a) v (text a) (mediaStream a) (sourceNode a)
        (scriptProcessorNode a) (player a) (ws_open a) (sent a) (resuming a)
        (requesting a) (overlapped a) (decoding a) (granted a)
        (tracks_stopped a) (plugged a) (wired a).
Definition set_text v a :=
  mkApp (isRecording a) (status a) (error a) v (mediaStream a)
        (sourceNode a) (scriptProcessorNode a) (player a) (ws_open a)
        (sent a) (resuming a) (requesting a) (overlapped a) (decoding a)
        (granted a) (tracks_stopped a) (plugged a) (wired a).
Definition set_player v a :=
  mkApp (isRecording a) (status a) (error a) (text a) (mediaStream a)
        (sourceNode a) (scriptProcessorNode a) v (ws_open a) (sent a)
        (resuming a) (requesting a) (overlapped a) (decoding a) (granted a)
        (tracks_stopped a) (plugged a) (wired a).
Definition set_ws_open v a :=
  mkApp (isRecording a) (status a) (error a) (text a) (mediaStream a)
        (sourceNode a) (scriptProcessorNode a) (player a) v (sent a)
        (resuming a) (requesting a) (overlapped a) (decoding a) (granted a)
        (tracks_stopped a) (plugged a) (wired a).
Definition set_sent v a :=
  mkApp (isRecording a) (status a) (error a) (text a) (mediaStream a)
        (sourceNode a) (scriptProcessorNode a) (player a) (ws_open a) v
        (resuming a) (requesting a) (overlapped a) (decoding a) (granted a)
        (tracks_stopped a) (plugged a) (wired a).
Definition set_resuming v a :=
  mkApp (isRecording a) (status a) (error a) (text a) (mediaStream a)
        (sourceNode a) (scriptProcessorNode a) (player a) (ws_open a)
        (sent a) v (requesting a) (overlapped a) (decoding a) (granted a)
        (tracks_stopped a) (plugged a) (wired a).
Definition set_requesting v a :=
  mkApp (isRecording a) (status a) (error a) (text a) (mediaStream a)
        (sourceNode a) (scriptProcessorNode a) (player a) (ws_open a)
        (sent a) (resuming a) v (overlapped a) (decoding a) (granted a)
        (tracks_stopped a) (plugged a) (wired a).
Definition set_overlapped v a :=
  mkApp (isRecording a) (status a) (error a) (text a) (mediaStream a)
        (sourceNode a) (scriptProcessorNode a) (player a) (ws_open a)
        (sent a) (resuming a) (requesting a) v (decoding a) (granted a)
        (tracks_stopped a) (plugged a) (wired a).
Definition set_decoding v a :=
  mkApp (isRecording a) (status a) (error a) (text a) (mediaStream a)
        (sourceNode a) (scriptProcessorNode a) (player a) (ws_open a)
        (sent a) (resuming a) (requesting a) (overlapped a) v (granted a)
        (tracks_stopped a) (plugged a) (wired a).

(** [if (this.ws.readyState === this.ws.OPEN) this.ws.send(JSON.stringify(v))] *)
Definition ws_send (v : json) (a : App) : App :=
  if ws_open a then set_sent (sent a ++ [v]) a else a.

(** [sendText(text)] *)
Definition sendText (t : string) (a : App) : App :=
  ws_send (JObj [("type", JStr "text"); ("text", JStr t)]) a.

(** [reset()] *)
Definition reset (a : App) : App :=
  set_status "Session reset"
    (set_text EmptyString (ws_send (JObj [("type", JStr "reset")]) a)).

(** The [onaudioprocess] callback on the samples of channel 0. *)
Definition onaudioprocess (pcm : list number) (a : App) : App :=
  if negb (isRecording a) then a
  else ws_send (JObj [("type", JStr "audio");
                      ("base64", JStr (float32ToPCM16Base64 pcm))]) a.

(** A field that holds a node, or [null], as the set of what it holds. *)
Definition held (field : option nat) : gset nat :=
  match field with
  | Some n => {[n]}
  | None => ∅
  end.

(** [stopRecording()]: each of the three fields is disconnected or
    stopped if it is set; the [try] blocks swallow what these calls
    may throw. *)
Definition stopRecording (a : App) : App :=
  if negb (isRecording a) && negb (bool_decide (is_Some (mediaStream a))) then a
  else
    mkApp false "Recording stopped." (error a) (text a) None None None
          (player a) (ws_open a) (sent a) (resuming a) (requesting a)
          (overlapped a) (decoding a) (granted a)
          (tracks_stopped a ∪ held (mediaStream a))
          (plugged a ∖ held (sourceNode a))
          (wired a ∖ held (scriptProcessorNode a)).

(** [startRecording()] up to [await this.inputAudioContext.resume()]. *)
Definition startRecording (a : App) : App :=
  if isRecording a then a
  else
    set_overlapped
      (overlapped a || negb ((resuming a + requesting a =? 0)%nat))
      (set_resuming (S (resuming a)) a).

(** From there up to [await navigator.mediaDevices.getUserMedia(...)]. *)
Definition startRecording_resumed (a : App) : App :=
  set_requesting (S (requesting a))
    (set_status "Requesting microphone access..." a).

(** The rest of the [try] block, once [getUserMedia] has resolved with a
    new stream: the source node and the script processor are created
    and connected.  These calls on the audio graph are made on a stream
    that has an audio track and with valid arguments; they are taken
    not to throw. *)
Definition startRecording_granted (a : App) : App :=
  let n := granted a in
  mkApp true "🔴 Recording…" (error a) (text a) (Some n) (Some n) (Some n)
        (player a) (ws_open a) (sent a) (resuming a) (requesting a)
        (overlapped a) (decoding a) (S n)
        (tracks_stopped a) (plugged a ∪ {[n]}) (wired a ∪ {[n]}).

(** The [catch] block, when [getUserMedia] has rejected with [err];
    [message] is [err?.message], [None] when it is [undefined] or
    [null]. *)
Definition startRecording_denied (message : option string) (a : App) : App :=
  stopRecording (set_error (default "Mic error" message) a).

(** The [message] listener on a frame of the relay (the relay sends
    [JSON.stringify] of a [ToClient] and nothing else), up to its
    [await]; what [base64ToArrayBuffer] throws is swallowed by the
    [catch] of the listener. *)
Definition on_message (m : ToClient) (a : App) : App :=
  match m with
  | Status message => set_status message a
  | Text t => set_text t a
  | Audio base64 _ =>
      match WsClient.audio_begin base64 with
      | Some ab => set_decoding (decoding a ++ [ab]) a
      | None => a
      end
  end.

(** The rest of the listener, once [decodeAudioData] has settled:
    [decoded] is the duration of the buffer, [None] when the promise
    is rejected, which the same [catch] swallows; [now] is
    [outputAudioContext.currentTime]. *)
Definition on_decoded (decoded : option Q) (now : Q) (a : App) : App :=
  set_player (WsClient.audio_resume decoded now (player a)) a.

Inductive Event : Type :=
| WsOpen                     (* the socket opens *)
| WsClosing                  (* its readyState leaves OPEN *)
| WsClose                    (* its close event *)
| WsError                    (* its error event *)
| Frame (m : ToClient)       (* the relay sends [m] *)
| Decoded (i : nat) (decoded : option Q) (now : Q)
                             (* the [i]-th pending decodeAudioData settles *)
| Ended (src : nat)          (* node [src] finished playing *)
| ClickReset
| ClickStart
| ClickStop
| Resumed                    (* inputAudioContext.resume() resolves *)
| Granted                    (* getUserMedia resolves *)
| Denied (message : option string)   (* getUserMedia rejects *)
| AudioProcess (pid : nat) (pcm : list number).
                             (* script processor [pid] delivers a buffer *)

(** One turn of the event loop.  A script processor delivers buffers
    while it has a connection left. *)
Definition step (a : App) (ev : Event) : App :=
  match ev with
  | WsOpen => set_status "Connected to Rev backend" (set_ws_open true a)
  | WsClosing => set_ws_open false a
  | WsClose => set_status "Disconnected" (set_ws_open false a)
  | WsError => set_error "WebSocket error" a
  | Frame m => on_message m a
  | Decoded i decoded now =>
      match decoding a !! i with
      | Some _ => on_decoded decoded now (set_decoding (delete i (decoding a)) a)
      | None => a
      end
  | Ended src => set_player (ended src (player a)) a
  | ClickReset => reset a
  | ClickStart => startRecording a
  | ClickStop => stopRecording a
  | Resumed =>
      match resuming a with
      | S k => startRecording_resumed (set_resuming k a)
      | O => a
      end
  | Granted =>
      match requesting a with
      | S k => startRecording_granted (set_requesting k a)
      | O => a
      end
  | Denied message =>
      match requesting a with
      | S k => startRecording_denied message (set_requesting k a)
      | O => a
      end
  | AudioProcess pid pcm =>
      if bool_decide (pid ∈ wired a ∪ plugged a) then onaudioprocess pcm a else a
  end.

(** The component once its constructor has run at clock time [now]. *)
Definition init (now : Q) : App :=
  mkApp false EmptyString EmptyString EmptyString None None None
        (mkScheduler now ∅ 0 [] ∅) false [] 0 0 false [] 0 ∅ ∅ ∅.

Definition run (now : Q) (evs : list Event) : App := foldl step (init now) evs.

End WsApp.

(** ** The direct client as a whole: index.tsx

    The session, the status line and the recorder of the component
    around the [onmessage] callback.  Sessions are numbered by the call
    of [client.live.connect] that creates them; streams and their nodes
    as in the WebSocket client. *)

Module DirectApp.
Import GenAI Num Player DirectClient.

Record App := mkApp {
  core : Client;  (* status, error and the playback state of onmessage *)
  isRecording : bool;  (* @state() isRecording *)
  mediaStream : option nat;  (* this.mediaStream *)
  sourceNode : option nat;  (* this.sourceNode *)
  scriptProcessorNode : option nat;  (* this.scriptProcessorNode *)
  session : option nat;  (* this.session; None is undefined *)
  connects : nat;  (* calls of client.live.connect so far *)
  connecting : list nat;  (* those that have not settled *)
  closed : list nat;  (* session.close() calls, latest first *)
  media : list (nat * list number);  (* sendRealtimeInput({media: createBlob(pcm)}): session, pcm *)
  thrown : nat;  (* capture callbacks ended by a TypeError *)
  resuming : nat;  (* startRecording calls at await inputAudioContext.resume() *)
  requesting : nat;  (* startRecording calls at await getUserMedia(...) *)
  granted : nat;  (* streams that getUserMedia has resolved with *)
  tracks_stopped : gset nat;  (* streams whose tracks were stopped *)
  plugged : gset nat;  (* source nodes that are connected *)
  wired : gset nat  (* script processors that are connected *)
}.

Definition set_core v a :=
  mkApp v (isRecording a) (mediaStream a) (sourceNode a)
        (scriptProcessorNode a) (session a) (connects a) (connecting a)
        (closed a) (media a) (thrown a) (resuming a) (requesting a)
        (granted a) (tracks_stopped a) (plugged a) (wired a).
Definition set_session v a :=
  mkApp (core a) (isRecording a) (mediaStream a) (sourceNode a)
        (scriptProcessorNode a) v (connects a) (connecting a) (closed a)
        (media a) (thrown a) (resuming a) (requesting a) (granted a)
        (tracks_stopped a) (plugged a) (wired a).
Definition set_connects v a :=
  mkApp (core a) (isRecording a) (mediaStream a) (sourceNode a)
        (scriptProcessorNode a) (session a) v (connecting a) (closed a)
        (media a) (thrown a) (resuming a) (requesting a) (granted a)
        (tracks_stopped a) (plugged a) (wired a).
Definition set_connecting v a :=
  mkApp (core a) (isRecording a) (mediaStream a) (sourceNode a)
        (scriptProcessorNode a) (session a) (connects a) v (closed a)
        (media a) (thrown a) (resuming a) (requesting a) (granted a)
        (tracks_stopped a) (plugged a) (wired a).
Definition set_closed v a :=
  mkApp (core a) (isRecording a) (mediaStream a) (sourceNode a)
        (scriptProcessorNode a) (session a) (connects a) (connecting a) v
        (media a) (thrown a) (resuming a) (requesting a) (granted a)
        (tracks_stopped a) (plugged a) (wired a).
Definition set_media v a :=
  mkApp (core a) (isRecording a) (mediaStream a) (sourceNode a)
        (scriptProcessorNode a) (session a) (connects a) (connecting a)
        (closed a) v (thrown a) (resuming a) (requesting a) (granted a)
        (tracks_stopped a) (plugged a) (wired a).
Definition set_thrown v a :=
  mkApp (core a) (isRecording a) (mediaStream a) (sourceNode a)
        (scriptProcessorNode a) (session a) (connects a) (connecting a)
        (closed a) (media a) v (resuming a) (requesting a) (granted a)
        (tracks_stopped a) (plugged a) (wired a).
Definition set_resuming v a :=
  mkApp (core a) (isRecording a) (mediaStream a) (sourceNode a)
        (scriptProcessorNode a) (session a) (connects a) (connecting a)
        (closed a) (media a) (thrown a) v (requesting a) (granted a)
        (tracks_stopped a) (plugged a) (wired a).
Definition set_requesting v a :=
  mkApp (core a) (isRecording a) (mediaStream a) (sourceNode a)
        (scriptProcessorNode a) (session a) (connects a) (connecting a)
        (closed a) (media a) (thrown a) (resuming a) v (granted a)
        (tracks_stopped a) (plugged a) (wired a).

(** [updateError(msg)] *)
Definition updateError (msg : string) (d : Client) : Client :=
  mkClient (DirectClient.player d) (status d) msg (waiting d).

Definition say (msg : string) (a : App) : App :=
  set_core (updateStatus msg (core a)) a.

(** What [render] puts in the status line: [this.error || this.status]. *)
Definition display (a : App) : string :=
  match error (core a) with
  | EmptyString => status (core a)
  | e => e
  end.

(** [initSession()] up to [await this.client.live.connect(...)]. *)
Definition initSession (a : App) : App :=
  set_connects (S (connects a)) (set_connecting (connecting a ++ [connects a]) a).

(** [reset()]: [this.session?.close(); this.initSession();
    this.updateStatus('Session cleared.')].  The field [session] keeps
    its value until the new connect call resolves. *)
Definition reset (a : App) : App :=
  let a :=
    match session a with
    | Some sid => set_closed (sid :: closed a) a
    | None => a
    end in
  say "Session cleared." (initSession a).

(** A field that holds a node, or [null], as the set of what it holds. *)
Definition held (field : option nat) : gset nat :=
  match field with
  | Some n => {[n]}
  | None => ∅
  end.

(** [stopRecording()] *)
Definition stopRecording (a : App) : App :=
  if negb (isRecording a) && negb (bool_decide (is_Some (mediaStream a))) then a
  else
    mkApp (updateStatus "Recording stopped."
             (updateStatus "Stopping recording..." (core a)))
          false None None None
          (session a) (connects a) (connecting a) (closed a) (media a)
          (thrown a) (resuming a) (requesting a) (granted a)
          (tracks_stopped a ∪ held (mediaStream a))
          (plugged a ∖ held (sourceNode a))
          (wired a ∖ held (scriptProcessorNode a)).

(** [startRecording()] up to [await this.inputAudioContext.resume()]. *)
Definition startRecording (a : App) : App :=
  if isRecording a then a else set_resuming (S (resuming a)) a.

(** From there up to [await navigator.mediaDevices.getUserMedia(...)]. *)
Definition startRecording_resumed (a : App) : App :=
  set_requesting (S (requesting a)) (say "Requesting microphone access..." a).

(** The rest of the [try] block, once [getUserMedia] has resolved with
    a new stream; the calls on the audio graph are taken not to throw. *)
Definition startRecording_granted (a : App) : App :=
  let n := granted a in
  mkApp (updateStatus "🔴 Recording..."
           (updateStatus "Microphone access granted. Starting capture..."
              (core a)))
        true (Some n) (Some n) (Some n)
        (session a) (connects a) (connecting a) (closed a) (media a)
        (thrown a) (resuming a) (requesting a) (S n)
        (tracks_stopped a) (plugged a ∪ {[n]}) (wired a ∪ {[n]}).

(** The [catch] block, when [getUserMedia] has rejected with [err];
    [message] is [err?.message], [None] when it is [undefined] or
    [null]. *)
Definition startRecording_denied (message : option string) (a : App) : App :=
  stopRecording (say ("Error: " +:+ default "Unknown error" message) a).

(** The [onaudioprocess] callback: [this.session.sendRealtimeInput(...)]
    throws a [TypeError] while [this.session] is [undefined], before
    [createBlob] is called. *)
Definition onaudioprocess (pcm : list number) (a : App) : App :=
  if negb (isRecording a) then a
  else
    match session a with
    | Some sid => set_media (media a ++ [(sid, pcm)]) a
    | None => set_thrown (S (thrown a)) a
    end.

Inductive Event : Type :=
| ConnectOk (sid : nat)            (* connect call [sid] resolves *)
| ConnectFail (sid : nat)          (* connect call [sid] rejects *)
| UpOpen (sid : nat)               (* callbacks of session [sid] *)
| UpError (sid : nat) (message : string)
| UpClose (sid : nat) (reason : string)
| UpMessage (sid : nat) (now : Q) (m : LiveServerMessage)
| Decoded (decoded : option Q)     (* the oldest waiting handler resumes *)
| Ended (src : nat)                (* node [src] finished playing *)
| ClickReset
| ClickStart
| ClickStop
| Resumed                          (* inputAudioContext.resume() resolves *)
| Granted                          (* getUserMedia resolves *)
| Denied (message : option string) (* getUserMedia rejects *)
| AudioProcess (pid : nat) (pcm : list number).
                                   (* script processor [pid] delivers a buffer *)

Definition on_core (ev : DirectClient.Event) (a : App) : App :=
  set_core (DirectClient.step (core a) ev) a.

(** One turn of the event loop. *)
Definition step (a : App) (ev : Event) : App :=
  match ev with
  | ConnectOk sid =>
      if bool_decide (sid ∈ connecting a)
      then set_session (Some sid)
             (set_connecting (filter (λ n, n ≠ sid) (connecting a)) a)
      else a
  | ConnectFail sid =>
      if bool_decide (sid ∈ connecting a)
      then set_core (updateError "Failed to open session." (core a))
             (set_connecting (filter (λ n, n ≠ sid) (connecting a)) a)
      else a
  | UpOpen sid =>
      if (sid <? connects a)%nat then say "Opened" a else a
  | UpError sid message =>
      if (sid <? connects a)%nat
      then set_core (updateError message (core a)) a else a
  | UpClose sid reason =>
      if (sid <? connects a)%nat then say ("Close: " +:+ reason) a else a
  | UpMessage sid now m =>
      if (sid <? connects a)%nat then on_core (Message now m) a else a
  | Decoded decoded => on_core (DirectClient.Decoded decoded) a
  | Ended src => on_core (DirectClient.Ended src) a
  | ClickReset => reset a
  | ClickStart => startRecording a
  | ClickStop => stopRecording a
  | Resumed =>
      match resuming a with
      | S k => startRecording_resumed (set_resuming k a)
      | O => a
      end
  | Granted =>
      match requesting a with
      | S k => startRecording_granted (set_requesting k a)
      | O => a
      end
  | Denied message =>
      match requesting a with
      | S k => startRecording_denied message (set_requesting k a)
      | O => a
      end
  | AudioProcess pid pcm =>
      if bool_decide (pid ∈ wired a ∪ plugged a) then onaudioprocess pcm a else a
  end.

(** The component once its constructor has run at clock time [now]:
    [initClient] has called [initAudio] and [initSession]. *)
Definition init (now : Q) : App :=
  initSession
    (mkApp (DirectClient.init now) false None None None None 0 [] [] [] 0
           0 0 0 ∅ ∅ ∅).

Definition run (now : Q) (evs : list Event) : App := foldl step (init now) evs.

End DirectApp.


(** * Specifications

    The predicates and the reference functions in which the properties
    are stated, and the inputs used as examples. *)

Module RelaySpec.
Import Wire GenAI Relay.

(** Frames used in examples. *)
Definition reset_frame : RawData := Some (JObj [("type", JStr "reset")]).

Definition say (ts : list string) : LiveServerMessage :=
  {| serverContent := Some
       {| modelTurn := Some
            {| parts := Some ((λ t, {| text := Some t; inlineData := None |}) <$> ts) |};
          interrupted := None |} |}.

(** The session that the reference holds, as a set. *)
Definition held (c : Conn) : gset nat :=
  match session c with
  | Some sid => {[sid]}
  | None => ∅
  end.

(** The frames that one part gives, in the specification's words: a
    text frame if the part carries text, then an audio frame if it carries
    inline audio. *)
Definition part_frames (p : Part) : list ToClient :=
  match truthy (text p) with
  | Some t => [Text t]
  | None => []
  end ++
  match inlineData p with
  | Some blob =>
      match truthy (data blob) with
      | Some d => [Audio d (default "audio/pcm; rate=24000" (mimeType blob))]
      | None => []
      end
  | None => []
  end.

Definition frames (m : LiveServerMessage) : list ToClient :=
  default [] (turn_parts m) ≫= part_frames.

(** The ways a frame fails validation: it is not JSON, not an object, its
    [type] is none of the three, or the field its type requires is
    missing, not a string, or empty. *)
Inductive Malformed : RawData → Prop :=
| bad_json : Malformed None
| bad_shape v : (∀ fields, v ≠ JObj fields) → Malformed (Some v)
| bad_type fields :
    (∀ tag, prop "type" fields = Some (JStr tag) →
            tag ≠ "text" ∧ tag ≠ "audio" ∧ tag ≠ "reset") →
    Malformed (Some (JObj fields))
| bad_text fields :
    prop "type" fields = Some (JStr "text") →
    (∀ s, prop "text" fields = Some (JStr s) → s = EmptyString) →
    Malformed (Some (JObj fields))
| bad_audio fields :
    prop "type" fields = Some (JStr "audio") →
    (∀ s, prop "base64" fields = Some (JStr s) → s = EmptyString) →
    Malformed (Some (JObj fields)).

(** What every reachable state satisfies. *)
Record Inv (c : Conn) : Prop := {
  inv_live : live c ⊆ held c;
  inv_await :
    match awaiting c with
    | [] => True
    | [(sid, _)] => session c = None ∧ sid < connects c
    | _ => False
    end;
  inv_session : ∀ sid, session c = Some sid → sid < connects c;
  inv_closed : ∀ sid, sid ∈ closed c → sid < connects c
}.

(** The listeners of the socket are registered, or the connect call
    made on accept is still pending. *)
Definition registered (c : Conn) : Prop :=
  listening c = true
  ∨ (session c = None ∧ Forall (λ p, p.2 = OnAccept) (awaiting c)).

(** Sending to the browser changes [toClient] and nothing else. *)
Definition only_sends (c c' : Conn) : Prop :=
  session c' = session c ∧ ready c' = ready c
  ∧ listening c' = listening c ∧ awaiting c' = awaiting c
  ∧ connects c' = connects c ∧ live c' = live c
  ∧ closed c' = closed c ∧ toUpstream c' = toUpstream c
  ∧ unhandled c' = unhandled c.

End RelaySpec.

Module PlayerSpec.
Import GenAI Player DirectClient.

Local Open Scope Q_scope.

(** The [start] calls that a run of timely [enqueue] calls makes, from
    node [n] on and from start time [t] on. *)
Fixpoint chain (n : nat) (t : Q) (calls : list (Q * Q)) : list (nat * Q * Q) :=
  match calls with
  | [] => []
  | (d, _) :: rest => (n, t, d) :: chain (S n) (t + d) rest
  end.


(** The message used in the examples: one part with the text [t], audio
    data if [audio], and the interrupted flag [flag]. *)
Definition turn (t : option string) (audio flag : bool) : LiveServerMessage :=
  {| serverContent := Some
       {| modelTurn := Some
            {| parts := Some
                 [ {| text := t;
                      inlineData :=
                        if audio
                        then Some {| data := Some "AAAA"; mimeType := None |}
                        else None |} ] |};
          interrupted := Some flag |} |}.







End PlayerSpec.

Module Base64Spec.
Import Base64.

Local Open Scope Z_scope.

Definition is_byte (b : Z) : Prop := 0 ≤ b < 256.
Definition is_sextet (v : Z) : Prop := 0 ≤ v < 64.

(** The 6-bit groups that [encode] turns into characters. *)
Fixpoint sextets (bs : bytes) : list Z :=
  match bs with
  | [] => []
  | [a] => [Z.shiftr a 2; Z.shiftl (Z.land a 3) 4]
  | [a; b] =>
      [Z.shiftr a 2;
       Z.lor (Z.shiftl (Z.land a 3) 4) (Z.shiftr b 4);
       Z.shiftl (Z.land b 15) 2]
  | a :: b :: c :: rest =>
      Z.shiftr a 2
      :: Z.lor (Z.shiftl (Z.land a 3) 4) (Z.shiftr b 4)
      :: Z.lor (Z.shiftl (Z.land b 15) 2) (Z.shiftr c 6)
      :: Z.land c 63
      :: sextets rest
  end.

(** The [=] signs that [encode] appends. *)
Fixpoint padding (bs : bytes) : list ascii :=
  match bs with
  | [] => []
  | [_] => ["="; "="]%char
  | [_; _] => ["="%char]
  | _ :: _ :: _ :: rest => padding rest
  end.

(** A check on all pairs of bytes, by evaluation. *)
Definition all_bytes2 (f : Z → Z → bool) : bool :=
  forallb (λ a, forallb (f a) (seqZ 0 256)) (seqZ 0 256).

End Base64Spec.

Module CodecSpec.
Import Wire GenAI Num Codec.

(** The quantisation in the specification's words: clamp to [-1, 1],
    scale a negative sample by 32768 and any other by 32767, keep the
    integer part; NaN counts as 0. *)
Definition quantize (x : number) : Z :=
  match x with
  | NaN => 0
  | Inf false => 32767
  | Inf true => -32768
  | Fin q =>
      if Qle_bool 1 q then 32767
      else if Qle_bool q (-1) then -32768
      else if Qle_bool 0 q then truncate (q * 32767)
      else truncate (q * 32768)
  end.

Definition audio_frame (base64 : string) : RawData :=
  Some (JObj [("type", JStr "audio"); ("base64", JStr base64)]).

(** A character that base64 text cannot contain: not in the alphabet,
    not padding, not white space. *)
Definition invalid_char (c : ascii) : Prop :=
  Base64.sextet c = None ∧ Base64.is_pad c = false
  ∧ Base64.is_ascii_whitespace c = false.

End CodecSpec.

Module RelayMoreSpec.
Import Wire GenAI Relay.

(** What a validated frame becomes for [session.sendRealtimeInput]; a
    reset is not an input. *)
Definition to_input (f : FromClient) : option RealtimeInput :=
  match f with
  | CText t => Some (InText t)
  | CAudio b64 => Some (InMedia (Base64.Buffer_from_base64 b64) "audio/pcm")
  | CReset => None
  end.

(** [raw] is a valid text or audio frame whose input is [inp]. *)
Definition carries (raw : RawData) (inp : RealtimeInput) : Prop :=
  ∃ f, decode_frame raw = Some f ∧ to_input f = Some inp.

(** While the socket to the browser is open, neither the session that is
    held nor one that is being connected was closed by the relay. *)
Definition unclosed (c : Conn) : Prop :=
  ready c = true →
  (∀ sid, session c = Some sid → sid ∉ closed c)
  ∧ (∀ sid o, (sid, o) ∈ awaiting c → sid ∉ closed c).

End RelayMoreSpec.

Module PlayerMoreSpec.
Import GenAI Player DirectClient.

Local Open Scope Q_scope.


(** What the bookkeeping of the direct client keeps true. *)
Record Sound (d : Client) : Prop := {
  sound_ids : (λ e : nat * Q * Q, e.1.1) <$> started (player d)
              = seq 0 (made (player d));
  sound_sources : ∀ n, n ∈ sources (player d) → (n < made (player d))%nat;
  sound_stopped : ∀ n, n ∈ stopped (player d) → (n < made (player d))%nat;
  sound_apart : sources (player d) ## stopped (player d);
  sound_waiting :
    Forall (λ m, includes "revolt" (toLowerCase (textResponse m)) = true
                 ∧ is_Some (first_part m ≫= inlineData)) (waiting d)
}.

End PlayerMoreSpec.

Module WsAppSpec.
Import Wire GenAI Num Codec Player WsApp.

(** The frames of the browser, as the relay receives them. *)
Definition text_json (t : string) : json :=
  JObj [("type", JStr "text"); ("text", JStr t)].

Definition audio_json (pcm : list number) : json :=
  JObj [("type", JStr "audio"); ("base64", JStr (float32ToPCM16Base64 pcm))].

Definition reset_json : json := JObj [("type", JStr "reset")].

(** What the recorder keeps true. *)
Record Tidy (a : App) : Prop := {
  tidy_flag : isRecording a = true ↔ is_Some (mediaStream a);
  tidy_source : sourceNode a = mediaStream a;
  tidy_processor : scriptProcessorNode a = mediaStream a;
  tidy_held : ∀ n, mediaStream a = Some n →
      (n < granted a)%nat ∧ (n ∉ tracks_stopped a) ∧ n ∈ wired a;
  tidy_stopped : ∀ n, n ∈ tracks_stopped a → (n < granted a)%nat ∧ n ∉ wired a;
  tidy_wired : ∀ n, n ∈ wired a → (n < granted a)%nat;
  tidy_plugged : plugged a = wired a;
  tidy_waiting : overlapped a = false →
      (resuming a + requesting a ≤ 1)%nat
      ∧ ((0 < resuming a + requesting a)%nat → mediaStream a = None);
  tidy_released : overlapped a = false →
      ∀ n, (n < granted a)%nat → mediaStream a = Some n ∨ n ∈ tracks_stopped a
}.

(** Stream [n] is live and its processor connected, and no field of
    the component refers to it. *)
Definition leaked (n : nat) (a : App) : Prop :=
  (n < granted a)%nat ∧ (n ∉ tracks_stopped a) ∧ n ∈ wired a
  ∧ mediaStream a ≠ Some n ∧ sourceNode a ≠ Some n
  ∧ scriptProcessorNode a ≠ Some n.

(** No entry of a log of [start] calls begins before the end of the
    entry before it. *)
Definition apart (log : list (nat * Q * Q)) : Prop :=
  ∀ i n1 t1 d1 n2 t2 d2,
    log !! i = Some (n1, t1, d1) → log !! S i = Some (n2, t2, d2) →
    (t1 + d1 <= t2)%Q.

End WsAppSpec.

Module DirectAppSpec.
Import GenAI Num Player DirectClient DirectApp.

(** Sessions and connect calls are numbered below [connects]. *)
Record Known (a : App) : Prop := {
  known_session : ∀ sid, session a = Some sid → (sid < connects a)%nat;
  known_connecting : ∀ sid, sid ∈ connecting a → (sid < connects a)%nat;
  known_closed : ∀ sid, sid ∈ closed a → (sid < connects a)%nat
}.

(** Session [sid] was opened, the client has not called [close()] on
    it, and the field [session] does not hold it. *)
Definition stray (sid : nat) (a : App) : Prop :=
  (sid < connects a)%nat ∧ (sid ∉ connecting a) ∧ (sid ∉ closed a)
  ∧ session a ≠ Some sid.

End DirectAppSpec.

(** * Properties of the relay *)

Module RelayFacts.
Import Wire GenAI Relay RelaySpec.

Example parse_text_frame :
  decode_frame (Some (JObj [("type", JStr "text"); ("text", JStr "hi")]))
  = Some (CText "hi").
Proof. reflexivity. Qed.

Example parse_extra_keys :
  decode_frame (Some (JObj [("id", JNum 7); ("type", JStr "reset")]))
  = Some CReset.
Proof. reflexivity. Qed.

Example parse_unknown_type :
  decode_frame (Some (JObj [("type", JStr "video")])) = None.
Proof. reflexivity. Qed.

Example run_reset :
  toClient (run [ConnectOk 0; UpOpen 0; WsMessage reset_frame; ConnectOk 1])
  = [Status "Session ready"; Status "Upstream opened"; Status "Session ready"].
Proof. reflexivity. Qed.

Lemma only_sends_refl c : only_sends c c.
Proof. by repeat split. Qed.

Lemma only_sends_trans c1 c2 c3 :
  only_sends c1 c2 → only_sends c2 c3 → only_sends c1 c3.
Proof.
  intros (?&?&?&?&?&?&?&?&?) (?&?&?&?&?&?&?&?&?).
  repeat split; congruence.
Qed.

Lemma send_only_sends msg c : only_sends c (send msg c).
Proof.
  unfold send. destruct (ready c) eqn:E; [|apply only_sends_refl].
  by repeat split.
Qed.

Lemma send_session msg c : session (send msg c) = session c.
Proof. apply send_only_sends. Qed.
Lemma send_ready msg c : ready (send msg c) = ready c.
Proof. apply send_only_sends. Qed.
Lemma send_listening msg c : listening (send msg c) = listening c.
Proof. apply send_only_sends. Qed.
Lemma send_awaiting msg c : awaiting (send msg c) = awaiting c.
Proof. apply send_only_sends. Qed.
Lemma send_connects msg c : connects (send msg c) = connects c.
Proof. apply send_only_sends. Qed.
Lemma send_live msg c : live (send msg c) = live c.
Proof. apply send_only_sends. Qed.
Lemma send_closed msg c : closed (send msg c) = closed c.
Proof. apply send_only_sends. Qed.
Lemma send_toUpstream msg c : toUpstream (send msg c) = toUpstream c.
Proof. apply send_only_sends. Qed.
Lemma send_unhandled msg c : unhandled (send msg c) = unhandled c.
Proof. apply send_only_sends. Qed.

Create Rewrite HintDb relay.
Hint Rewrite send_session send_ready send_listening send_awaiting
  send_connects send_live send_closed send_toUpstream send_unhandled : relay.

Lemma forward_part_only_sends p c : only_sends c (forward_part p c).
Proof.
  unfold forward_part.
  destruct (truthy (text p)) as [t|], (inlineData p) as [b|];
    try destruct (truthy (data b));
    eauto using only_sends_refl, only_sends_trans, send_only_sends.
Qed.

Lemma onmessage_only_sends m c : only_sends c (onmessage m c).
Proof.
  unfold onmessage. generalize (default [] (turn_parts m)) as ps.
  intros ps. revert c. induction ps as [|p ps IH]; intros c; simpl.
  - apply only_sends_refl.
  - eapply only_sends_trans; [apply forward_part_only_sends|apply IH].
Qed.

Lemma Inv_ext c c' :
  session c' = session c → awaiting c' = awaiting c → connects c' = connects c →
  live c' = live c → closed c' = closed c → Inv c → Inv c'.
Proof.
  intros Hs Ha Hc Hl Hd [H1 H2 H3 H4].
  split; unfold held in *; rewrite ?Hs, ?Ha, ?Hc, ?Hl, ?Hd; done.
Qed.

Lemma Inv_only_sends c c' : only_sends c c' → Inv c → Inv c'.
Proof. intros (?&?&?&?&?&?&?&?&?). by apply Inv_ext. Qed.

Lemma Inv_send msg c : Inv c → Inv (send msg c).
Proof. apply Inv_only_sends, send_only_sends. Qed.

Lemma Inv_accept : Inv accept.
Proof.
  split; simpl; [done|split; [done|lia]|done|].
  intros sid Hs. by apply not_elem_of_nil in Hs.
Qed.

Lemma origin_of_awaiting sid o c :
  Inv c → origin_of sid c = Some o →
  awaiting c = [(sid, o)] ∧ session c = None ∧ live c = ∅ ∧ sid < connects c.
Proof.
  intros [Hl Ha _ _]. unfold origin_of, held in *.
  destruct (awaiting c) as [|[sid' o'] [|x l]]; try done.
  destruct Ha as [Hs Hlt]. rewrite Hs in Hl.
  rewrite filter_cons. case_decide as Heq; simpl in *; [|done].
  intros [= <-]. subst sid'. repeat split; [done|set_solver|done].
Qed.

Lemma Inv_step c ev : Inv c → Inv (step c ev).
Proof.
  intros HI. destruct ev as [sid|sid reason|raw| |sid|sid msg|sid reason|sid m]; simpl.
  - destruct (origin_of sid c) as [o|] eqn:Ho; [|done].
    destruct (origin_of_awaiting _ _ _ HI Ho) as (Ha & Hs & Hl & Hlt).
    assert (Inv (set_live (live (settle sid c) ∪ {[sid]})
                   (set_session (Some sid) (settle sid c)))) as HI'.
    { destruct HI as [H1 H2 H3 H4].
      split; unfold held; simpl; rewrite ?Ha, ?Hl.
      - set_solver.
      - rewrite filter_cons. simpl. by rewrite decide_False by naive_solver.
      - by intros ? [= <-].
      - done. }
    unfold on_connect_ok.
    destruct o; [eapply Inv_ext; [..|apply Inv_send, HI']; done|by apply Inv_send].
  - destruct (origin_of sid c) as [o|] eqn:Ho; [|done].
    destruct (origin_of_awaiting _ _ _ HI Ho) as (Ha & Hs & Hl & Hlt).
    assert (Inv (settle sid c)) as HI'.
    { destruct HI as [H1 H2 H3 H4].
      split; unfold held; simpl; rewrite ?Ha; try done.
      rewrite filter_cons. simpl. by rewrite decide_False by naive_solver. }
    unfold on_connect_fail.
    destruct o; [eapply Inv_ext; [..|apply Inv_send, HI']; done|].
    eapply Inv_ext; [..|apply HI']; done.
  - destruct (listening c); [|done]. unfold on_ws_message.
    destruct (session c) as [sid|] eqn:Hs; [|done].
    destruct (decode_frame raw) as [[t|b|]|]; [| |
      |by apply Inv_send]; try (eapply Inv_ext; [..|apply HI]; done).
    destruct HI as [H1 H2 H3 H4]. unfold held in H1. rewrite Hs in H1.
    assert (awaiting c = []) as Ha.
    { destruct (awaiting c) as [|[??] [|??]]; naive_solver. }
    unfold openSession; simpl.
    split; unfold held; simpl; rewrite ?Ha; simpl.
    + set_solver.
    + split; [done|lia].
    + done.
    + intros x [->|Hx]%elem_of_cons; [apply H3 in Hs|apply H4 in Hx]; lia.
  - assert (Inv (if listening c then on_ws_close c else c)) as HI'.
    { destruct (listening c); [|done]. unfold on_ws_close.
      destruct (session c) as [sid|] eqn:Hs; [|done].
      destruct HI as [H1 H2 H3 H4]. unfold held in H1. rewrite Hs in H1.
      assert (awaiting c = []) as Ha.
      { destruct (awaiting c) as [|[??] [|??]]; naive_solver. }
      split; unfold held; simpl; rewrite ?Hs, ?Ha.
      - set_solver.
      - done.
      - intros ? [= <-]. by apply H3.
      - intros x [->|Hx]%elem_of_cons; [by apply H3|by apply H4]. }
    eapply Inv_ext; [..|apply HI']; done.
  - case_match; [by apply Inv_send|done].
  - case_match; [by apply Inv_send|done].
  - case_match; [|done]. apply Inv_send.
    destruct HI as [H1 H2 H3 H4]. split; simpl; try done. set_solver.
  - case_match; [|done].
    eapply Inv_only_sends; [apply onmessage_only_sends|done].
Qed.

Lemma run_snoc evs ev : run (evs ++ [ev]) = step (run evs) ev.
Proof. unfold run. by rewrite foldl_app. Qed.

Lemma Inv_run evs : Inv (run evs).
Proof.
  induction evs as [|ev evs IH] using rev_ind; [apply Inv_accept|].
  rewrite run_snoc. by apply Inv_step.
Qed.

Lemma origin_of_elem sid o c :
  origin_of sid c = Some o → (sid, o) ∈ awaiting c.
Proof.
  unfold origin_of. intros H.
  destruct (head (filter (λ p, p.1 = sid) (awaiting c))) as [[sid' o']|] eqn:Hh;
    [|done].
  simpl in H. injection H as ->.
  apply head_Some_elem_of, list_elem_of_filter in Hh as [Heq Hin].
  simpl in Heq. by subst sid'.
Qed.

Lemma listening_step c ev : listening c = true → listening (step c ev) = true.
Proof.
  intros Hl.
  destruct ev as [sid|sid reason|raw| |sid|sid msg|sid reason|sid m]; simpl.
  - destruct (origin_of sid c) as [[]|]; [done| |done].
    unfold on_connect_ok. by autorewrite with relay.
  - destruct (origin_of sid c) as [[]|]; done.
  - rewrite Hl. unfold on_ws_message.
    destruct (session c); [|done].
    destruct (decode_frame raw) as [[t|b|]|]; try done.
    by autorewrite with relay.
  - rewrite Hl. unfold on_ws_close. by destruct (session c).
  - case_match; [|done]. by autorewrite with relay.
  - case_match; [|done]. by autorewrite with relay.
  - case_match; [|done]. by autorewrite with relay.
  - case_match; [|done]. by destruct (onmessage_only_sends m c) as (_ & _ & -> & _).
Qed.

Lemma registered_step c ev : registered c → registered (step c ev).
Proof.
  intros [Hl|[Hs Ha]]; [left; by apply listening_step|].
  destruct (listening c) eqn:Hl; [left; by apply listening_step|].
  destruct ev as [sid|sid reason|raw| |sid|sid msg|sid reason|sid m]; simpl;
    rewrite ?Hl.
  - destruct (origin_of sid c) as [o|] eqn:Ho; [|by right].
    apply origin_of_elem in Ho.
    rewrite Forall_forall in Ha. specialize (Ha _ Ho). simpl in Ha. subst o.
    by left.
  - destruct (origin_of sid c) as [o|] eqn:Ho; [|by right].
    apply origin_of_elem in Ho.
    rewrite Forall_forall in Ha. specialize (Ha _ Ho). simpl in Ha. subst o.
    by left.
  - by right.
  - by right.
  - right. case_match; [|done]. by autorewrite with relay.
  - right. case_match; [|done]. by autorewrite with relay.
  - right. case_match; [|done]. by autorewrite with relay.
  - right. case_match; [|done].
    by destruct (onmessage_only_sends m c) as (-> & _ & _ & -> & _).
Qed.

Lemma registered_run evs : registered (run evs).
Proof.
  induction evs as [|ev evs IH] using rev_ind.
  - right. split; [done|]. by repeat constructor.
  - rewrite run_snoc. by apply registered_step.
Qed.

(** A session is held only after the listeners were registered. *)
Lemma session_listening evs sid :
  session (run evs) = Some sid → listening (run evs) = true.
Proof.
  intros Hs. destruct (registered_run evs) as [Hl|[Hn _]]; [done|congruence].
Qed.

Lemma held_size c : size (held c) ≤ 1.
Proof.
  unfold held. destruct (session c).
  - rewrite size_singleton. lia.
  - rewrite size_empty. lia.
Qed.

Lemma Inv_no_await c sid : Inv c → session c = Some sid → awaiting c = [].
Proof.
  intros [_ Ha _ _] Hs.
  destruct (awaiting c) as [|[??] [|??]]; naive_solver.
Qed.

Lemma Inv_live_held c sid : Inv c → session c = Some sid → live c ∖ {[sid]} = ∅.
Proof. intros [Hl _ _ _] Hs. unfold held in Hl. rewrite Hs in Hl. set_solver. Qed.

(** ** C1 *)

(** C1, as stated, fails: a session is not created on each reset.  A
    reset that arrives while the connect call of the reset before it is
    pending finds no session and is dropped; two resets give one new
    session. *)
Lemma second_reset_dropped :
  let c := run [ConnectOk 0; WsMessage reset_frame] in
  decode_frame reset_frame = Some CReset
  ∧ connects c = 2 ∧ session c = None
  ∧ connects (step c (WsMessage reset_frame)) = 2
  ∧ awaiting (step c (WsMessage reset_frame)) = awaiting c
  ∧ closed (step c (WsMessage reset_frame)) = closed c
  ∧ connects (run [ConnectOk 0; WsMessage reset_frame; WsMessage reset_frame;
                   ConnectOk 1]) = 2.
Proof. by vm_compute. Qed.

(** C1, amended.  In every state that a connection can reach, at most
    one upstream session is live, and it is the one the [session]
    variable holds.  Accepting a connection starts one connect call.  A
    reset that finds a session closes it and drops the reference before
    it starts the next connect call, whose session is a new one.  Once
    the listeners are registered, the close handler closes the session
    that is held, if any, leaves no live session behind and raises
    nothing, also when the variable is [null] or the session was closed
    before.  Nothing but a reset and the transport's close calls
    [session.close()]. *)
Theorem one_session_per_connection (evs : list Event) :
  let c := run evs in
  (size (live c) ≤ 1 ∧ live c ⊆ held c)
  ∧ (awaiting accept = [(0, OnAccept)] ∧ live accept = ∅
     ∧ held (step accept (ConnectOk 0)) = {[0]})
  ∧ (∀ raw old,
       session c = Some old → decode_frame raw = Some CReset →
       let c1 := step c (WsMessage raw) in
       let c2 := step c1 (ConnectOk (connects c)) in
       closed c1 = old :: closed c ∧ session c1 = None ∧ live c1 = ∅
       ∧ awaiting c1 = [(connects c, OnReset)]
       ∧ connects c ≠ old ∧ (connects c ∉ closed c1)
       ∧ session c2 = Some (connects c) ∧ live c2 = {[connects c]})
  ∧ (listening c = true →
       let c' := step c WsClose in
       closed c' = from_option (λ sid, sid :: closed c) (closed c) (session c)
       ∧ live c' = ∅ ∧ unhandled c' = unhandled c ∧ ready c' = false)
  ∧ (∀ ev, closed (step c ev) ≠ closed c →
       ev = WsClose ∨ ∃ raw, ev = WsMessage raw ∧ decode_frame raw = Some CReset).
Proof.
  intros c. pose proof (Inv_run evs) as HI. fold c in HI.
  split; [|split; [|split; [|split]]].
  - split; [|apply HI].
    pose proof (subseteq_size _ _ (inv_live _ HI)).
    pose proof (held_size c). lia.
  - done.
  - intros raw old Hs Hraw c1 c2.
    pose proof (session_listening evs old Hs) as Hlisten. fold c in Hlisten.
    assert (c1 = openSession OnReset (set_session None (close_session old c))) as Hc1.
    { unfold c1. simpl. rewrite Hlisten. unfold on_ws_message. by rewrite Hs, Hraw. }
    pose proof (Inv_no_await _ _ HI Hs) as Ha.
    pose proof (Inv_live_held _ _ HI Hs) as Hl.
    assert (old < connects c) as Hold by by apply HI.
    assert (closed c1 = old :: closed c ∧ session c1 = None ∧ live c1 = ∅
            ∧ awaiting c1 = [(connects c, OnReset)]) as (E1 & E2 & E3 & E4).
    { rewrite Hc1. unfold openSession. simpl. by rewrite Ha, Hl. }
    split_and!; try done.
    + lia.
    + rewrite E1. intros [Heq|Hin]%elem_of_cons; [lia|].
      apply HI in Hin. lia.
    + unfold c2. simpl. unfold origin_of. rewrite E4, filter_cons. simpl.
      rewrite decide_True by done. simpl.
      unfold on_connect_ok. by autorewrite with relay.
    + unfold c2. simpl. unfold origin_of. rewrite E4, filter_cons. simpl.
      rewrite decide_True by done. simpl.
      unfold on_connect_ok. autorewrite with relay. simpl.
      rewrite E3. set_solver.
  - intros Hlisten c'. unfold c'. simpl. rewrite Hlisten. unfold on_ws_close.
    destruct (session c) as [sid|] eqn:Hs; simpl.
    + split_and!; try done. by apply Inv_live_held.
    + split_and!; try done.
      destruct HI as [Hl _ _ _]. unfold held in Hl. rewrite Hs in Hl. set_solver.
  - intros ev Hne.
    destruct ev as [sid|sid reason|raw| |sid|sid msg|sid reason|sid m];
      simpl in Hne; try (by left);
      [| |destruct (decode_frame raw) as [[t|b|]|] eqn:Hraw; [| |by eauto|]|..];
      exfalso; apply Hne; clear Hne.
    + destruct (origin_of sid c) as [[]|]; [| |done]; unfold on_connect_ok;
        simpl; by autorewrite with relay.
    + destruct (origin_of sid c) as [[]|]; [| |done]; unfold on_connect_fail;
        simpl; by autorewrite with relay.
    + destruct (listening c); [|done]. unfold on_ws_message.
      destruct (session c); [|done]. by rewrite Hraw.
    + destruct (listening c); [|done]. unfold on_ws_message.
      destruct (session c); [|done]. by rewrite Hraw.
    + destruct (listening c); [|done]. unfold on_ws_message.
      destruct (session c); [|done]. rewrite Hraw. by autorewrite with relay.
    + case_match; [|done]. by autorewrite with relay.
    + case_match; [|done]. by autorewrite with relay.
    + case_match; [|done]. by autorewrite with relay.
    + case_match; [|done]. apply onmessage_only_sends.
Qed.

Lemma one_session_per_connection_witness :
  let c := run [ConnectOk 0] in
  session c = Some 0 ∧ decode_frame reset_frame = Some CReset
  ∧ listening c = true
  ∧ session (step c (WsMessage reset_frame)) = None
  ∧ awaiting (step c (WsMessage reset_frame)) = [(1, OnReset)]
  ∧ live (step c WsClose) = ∅.
Proof.
  intros c.
  destruct (one_session_per_connection [ConnectOk 0]) as (_ & _ & Hr & Hc & _).
  destruct (Hr reset_frame 0) as (_ & Hs & _ & Ha & _); try reflexivity.
  destruct Hc as (_ & Hl & _); [reflexivity|].
  split_and!; try reflexivity; assumption.
Defined.

(** A close of the transport that arrives while a connect call is
    pending.  The listener for the close is registered after the first
    [await openSession()]: when the transport closes while that connect
    call is pending, nothing handles the close, and the session that the
    call then opens is never closed.  When the transport closes while the
    connect call of a reset is pending, the handler finds no session to
    close, and the session that opens afterwards is never closed either. *)
Lemma close_during_connect :
  (let c := run [WsClose; ConnectOk 0] in
   ready c = false ∧ session c = Some 0
   ∧ elements (live c) = [0] ∧ closed c = [])
  ∧ (let c := run [ConnectOk 0; WsMessage reset_frame; WsClose; ConnectOk 1] in
     ready c = false ∧ session c = Some 1
     ∧ elements (live c) = [1] ∧ closed c = [0]).
Proof. by vm_compute. Qed.

(** ** Forwarding *)

Lemma send_toClient msg c :
  toClient (send msg c) = toClient c ++ (if ready c then [msg] else []).
Proof. unfold send. destruct (ready c); simpl; by rewrite ?app_nil_r. Qed.

Lemma forward_part_toClient p c :
  toClient (forward_part p c)
  = toClient c ++ (if ready c then part_frames p else []).
Proof.
  unfold forward_part, part_frames.
  destruct (truthy (text p)) as [t|], (inlineData p) as [b|];
    try destruct (truthy (data b));
    rewrite ?send_toClient, ?send_ready; destruct (ready c);
    simpl; by rewrite <- ?app_assoc, ?app_nil_r.
Qed.

Lemma forward_parts_toClient ps c :
  toClient (foldl (λ c p, forward_part p c) c ps)
  = toClient c ++ (if ready c then ps ≫= part_frames else []).
Proof.
  revert c. induction ps as [|p ps IH]; intros c; simpl.
  - destruct (ready c); by rewrite app_nil_r.
  - rewrite IH, forward_part_toClient.
    destruct (forward_part_only_sends p c) as (_ & -> & _).
    destruct (ready c); by rewrite <- ?app_assoc.
Qed.

Lemma onmessage_toClient m c :
  toClient (onmessage m c) = toClient c ++ (if ready c then frames m else []).
Proof. apply forward_parts_toClient. Qed.

Lemma frames_say ts :
  Forall (λ t, t ≠ EmptyString) ts → frames (say ts) = Text <$> ts.
Proof.
  unfold frames, say. simpl. induction 1 as [|t ts Ht _ IH]; [done|].
  rewrite fmap_cons, bind_cons, IH. unfold part_frames at 1. simpl.
  apply String.eqb_neq in Ht. by rewrite Ht.
Qed.

(** ** C7 *)

(** C7.  While the socket to the browser is open, one upstream message
    adds to the frames sent to the browser exactly the frames of its
    parts, part after part in the order of the list: for a part with
    text a text frame with that text, for a part with inline data an
    audio frame with the data and its mime type (the 24 kHz PCM type when
    the part names none).  A message whose parts are the texts [ts] gives
    one text frame per text, in that order. *)
Theorem parts_forwarded_in_order (c : Conn) (m : LiveServerMessage) :
  ready c = true →
  toClient (onmessage m c)
  = toClient c ++ (default [] (turn_parts m) ≫= part_frames)
  ∧ (∀ p t, text p = Some t → t ≠ EmptyString → inlineData p = None →
            part_frames p = [Text t])
  ∧ (∀ p d mt, text p = None →
               inlineData p = Some {| data := Some d; mimeType := Some mt |} →
               d ≠ EmptyString → part_frames p = [Audio d mt])
  ∧ (∀ ts, Forall (λ t, t ≠ EmptyString) ts →
           toClient (onmessage (say ts) c) = toClient c ++ (Text <$> ts)).
Proof.
  intros Hready. split_and!.
  - by rewrite onmessage_toClient, Hready.
  - intros p t Ht Hne Hd. unfold part_frames. rewrite Ht, Hd. simpl.
    apply String.eqb_neq in Hne. by rewrite Hne.
  - intros p d mt Ht Hd Hne. unfold part_frames. rewrite Ht, Hd. simpl.
    apply String.eqb_neq in Hne. by rewrite Hne.
  - intros ts Hts. by rewrite onmessage_toClient, Hready, frames_say.
Qed.

Lemma parts_forwarded_in_order_witness :
  ready (run [ConnectOk 0]) = true
  ∧ toClient (onmessage (say ["Hello"; " there"]) (run [ConnectOk 0]))
    = [Status "Session ready"; Text "Hello"; Text " there"].
Proof.
  split; [reflexivity|].
  destruct (parts_forwarded_in_order (run [ConnectOk 0]) (say ["Hello"; " there"]))
    as (_ & _ & _ & H); [reflexivity|].
  apply H. repeat constructor; discriminate.
Defined.

(** ** C2 *)

(** C2, as stated, fails: session 0 is closed by a reset and session 1
    replaces it; a message that the callbacks of session 0 deliver
    afterwards is sent to the browser all the same. *)
Lemma stale_message_forwarded :
  let c := run [ConnectOk 0; WsMessage reset_frame; ConnectOk 1] in
  session c = Some 1 ∧ closed c = [0]
  ∧ toClient (step c (UpMessage 0 (say ["stale"])))
    = toClient c ++ [Text "stale"].
Proof. by vm_compute. Qed.

(** C2, amended.  The forwarding path does not look at the session a
    message comes from: the callbacks of every session that was ever
    created for the connection, the current one or an earlier one, send
    the frames of the message to the browser while the socket is open. *)
Theorem forwarding_ignores_generation (evs : list Event) (sid sid' : nat)
    (m : LiveServerMessage) :
  let c := run evs in
  sid < connects c → sid' < connects c →
  step c (UpMessage sid m) = step c (UpMessage sid' m)
  ∧ toClient (step c (UpMessage sid m))
    = toClient c ++ (if ready c then frames m else []).
Proof.
  intros c H1 H2. simpl.
  apply Nat.ltb_lt in H1, H2. rewrite H1, H2.
  split; [done|apply onmessage_toClient].
Qed.

Lemma forwarding_ignores_generation_witness :
  let c := run [ConnectOk 0; WsMessage reset_frame; ConnectOk 1] in
  0 < connects c ∧ 1 < connects c
  ∧ step c (UpMessage 0 (say ["late"])) = step c (UpMessage 1 (say ["late"])).
Proof.
  intros c. split; [vm_compute; lia|]. split; [vm_compute; lia|].
  apply (forwarding_ignores_generation
           [ConnectOk 0; WsMessage reset_frame; ConnectOk 1] 0 1 (say ["late"]));
    vm_compute; lia.
Defined.

(** ** C3 *)

Lemma no_session_drops_frame raw c :
  session c = None → step c (WsMessage raw) = c.
Proof.
  intros Hs. simpl. unfold on_ws_message. rewrite Hs. by destruct (listening c).
Qed.

(** C3, as stated, fails: after the first open has failed, a reset frame
    changes nothing; no second connect call is made. *)
Lemma reset_after_failed_open_ignored :
  let c := run [ConnectFail 0 "boom"] in
  toClient c = [Status "Failed to open session: boom"]
  ∧ connects c = 1
  ∧ connects (step c (WsMessage reset_frame)) = 1
  ∧ awaiting (step c (WsMessage reset_frame)) = [].
Proof. by vm_compute. Qed.

(** C3, amended.  When the open that follows the accept fails, the
    browser is sent the status [Failed to open session: <reason>], the
    socket stays open and its listeners are registered, nothing is left
    uncaught, and the session variable stays [null]; every frame the
    browser sends from then on, a reset included, is dropped without a
    status and without a new connect call. *)
Theorem failed_open_reported (reason : string) (raws : list RawData) :
  let c := run [ConnectFail 0 reason] in
  toClient c = [Status ("Failed to open session: " +:+ reason)]
  ∧ ready c = true ∧ listening c = true ∧ unhandled c = []
  ∧ session c = None ∧ connects c = 1
  ∧ foldl step c (WsMessage <$> raws) = c.
Proof.
  intros c. split_and!; try done.
  induction raws as [|raw raws IH]; [done|].
  rewrite fmap_cons.
  change (foldl step (step c (WsMessage raw)) (WsMessage <$> raws) = c).
  by rewrite no_session_drops_frame.
Qed.

(** ** C4 *)

Lemma z_string_min1_None v :
  z_string_min1 v = None ↔ ∀ s, v = Some (JStr s) → s = EmptyString.
Proof.
  unfold z_string_min1. destruct v as [[| | |s| |]|]; try (split; [intros _ s' [=]|done]).
  destruct s as [|a s]; simpl.
  - split; [by intros _ s' [= <-]|done].
  - split; [done|]. intros H. by specialize (H _ eq_refl).
Qed.

Lemma Malformed_decode raw : Malformed raw ↔ decode_frame raw = None.
Proof.
  split.
  - intros [|v Hv|fields Ht|fields Ht Hs|fields Ht Hs]; simpl.
    + done.
    + destruct v; try done. by destruct (Hv fields).
    + destruct (prop "type" fields) as [[| | |tag| |]|]; try done.
      destruct (Ht tag eq_refl) as (H1 & H2 & H3).
      apply String.eqb_neq in H1, H2, H3. by rewrite H1, H2, H3.
    + rewrite Ht. simpl. apply z_string_min1_None in Hs. by rewrite Hs.
    + rewrite Ht. simpl. apply z_string_min1_None in Hs. by rewrite Hs.
  - destruct raw as [v|]; [|constructor]. simpl.
    destruct v as [| | | | |fields]; try (intros _; by apply bad_shape).
    simpl. destruct (prop "type" fields) as [[| | |tag| |]|] eqn:Ht;
      try (intros _; apply bad_type; by rewrite Ht).
    destruct (String.eqb_spec tag "text") as [->|H1].
    { intros H. apply bad_text; [done|]. apply z_string_min1_None.
      by destruct (z_string_min1 (prop "text" fields)). }
    destruct (String.eqb_spec tag "audio") as [->|H2].
    { intros H. apply bad_audio; [done|]. apply z_string_min1_None.
      by destruct (z_string_min1 (prop "base64" fields)). }
    destruct (String.eqb_spec tag "reset") as [->|H3]; [done|].
    intros _. apply bad_type. rewrite Ht. by intros ? [= <-].
Qed.

(** C4, as stated, fails: the handler returns before it validates when
    no session is held, so a frame that is not JSON gets no status after
    a failed open, and none while a reset is waiting for its session. *)
Lemma bad_frame_without_session_silent :
  Malformed None
  ∧ (let c := run [ConnectFail 0 "boom"] in
     toClient (step c (WsMessage None)) = toClient c)
  ∧ (let c := run [ConnectOk 0; WsMessage reset_frame] in
     ready c = true ∧ toClient (step c (WsMessage None)) = toClient c).
Proof. split; [constructor|by vm_compute]. Qed.

(** C4, amended.  While a session is held and the socket is open, a frame
    that is not JSON, has an unknown type or lacks the field its type
    requires (an empty string counts as lacking) makes the relay send the
    one status [Bad client message] and changes nothing else: the frame
    goes nowhere and the connection stays open. *)
Theorem bad_frame_one_status (evs : list Event) (sid : nat) (raw : RawData) :
  let c := run evs in
  session c = Some sid → ready c = true → Malformed raw →
  step c (WsMessage raw)
  = set_toClient (toClient c ++ [Status "Bad client message"]) c
  ∧ ready (step c (WsMessage raw)) = true
  ∧ session (step c (WsMessage raw)) = Some sid
  ∧ toUpstream (step c (WsMessage raw)) = toUpstream c.
Proof.
  intros c Hs Hr Hbad%Malformed_decode.
  pose proof (session_listening evs sid Hs) as Hl. fold c in Hl.
  assert (step c (WsMessage raw)
          = set_toClient (toClient c ++ [Status "Bad client message"]) c) as ->.
  { simpl. rewrite Hl. unfold on_ws_message. rewrite Hs, Hbad.
    unfold send. by rewrite Hr. }
  done.
Qed.

Lemma bad_frame_one_status_witness :
  let c := run [ConnectOk 0] in
  let raw := Some (JObj [("type", JStr "text"); ("text", JStr EmptyString)]) in
  session c = Some 0 ∧ ready c = true ∧ Malformed raw
  ∧ toClient (step c (WsMessage raw))
    = [Status "Session ready"; Status "Bad client message"].
Proof.
  intros c raw.
  assert (Malformed raw) as Hbad.
  { apply bad_text; [reflexivity|]. by intros s [= <-]. }
  split_and!; [reflexivity|reflexivity|exact Hbad|].
  destruct (bad_frame_one_status [ConnectOk 0] 0 raw) as (-> & _);
    [reflexivity|reflexivity|exact Hbad|reflexivity].
Defined.

End RelayFacts.

(** * Properties of the playback scheduler *)

Module PlayerFacts.
Import GenAI Player DirectClient PlayerSpec.

Local Open Scope Q_scope.

Example late_enqueue_leaves_gap :
  started (enqueue_all [(2, 1); (1, 5)] (mkScheduler 0 ∅ 0 [] ∅))
  = [(0%nat, 1, 2); (1%nat, 5, 1)].
Proof. reflexivity. Qed.

Example keyword_any_case :
  includes "revolt" (toLowerCase "The ReVoLt RV400") = true
  ∧ includes "revolt" (toLowerCase "The RV400") = false.
Proof. split; reflexivity. Qed.


Lemma Math_max_lower a b : a <= Math_max a b ∧ b <= Math_max a b.
Proof.
  unfold Math_max. destruct (a ?= b) eqn:E.
  - apply Qeq_alt in E. split; [apply Qle_refl|]. rewrite E. apply Qle_refl.
  - apply Qlt_alt in E. split; [by apply Qlt_le_weak|apply Qle_refl].
  - apply Qgt_alt in E. split; [apply Qle_refl|by apply Qlt_le_weak].
Qed.




Lemma chain_length n t calls : length (chain n t calls) = length calls.
Proof.
  revert n t. induction calls as [|[d now] calls IH]; intros n t; simpl; [done|].
  by rewrite IH.
Qed.




(** ** C5 *)



(** ** C6 *)

Lemma interrupt_loop s :
  let s' := set_fold stop_and_delete s (sources s) in
  sources s' = ∅ ∧ stopped s' = stopped s ∪ sources s
  ∧ made s' = made s ∧ started s' = started s.
Proof.
  simpl.
  pose (P := λ (r : Scheduler) (X : gset nat),
          sources r = sources s ∖ X ∧ stopped r = stopped s ∪ X
          ∧ made r = made s ∧ started r = started s).
  assert (∀ X, P (set_fold stop_and_delete s X) X) as H.
  { apply (set_fold_ind_L P); unfold P.
    - split_and!; [set_solver|set_solver|done|done].
    - intros x X r _ (H1 & H2 & H3 & H4). simpl. rewrite H1, H2.
      split_and!; [set_solver|set_solver|done|done]. }
  destruct (H (sources s)) as (H1 & H2 & H3 & H4).
  split_and!; [set_solver|done|done|done].
Qed.

Lemma interrupt_spec s :
  interrupt s
  = mkScheduler 0 ∅ (made s) (started s) (stopped s ∪ sources s).
Proof.
  unfold interrupt. destruct (interrupt_loop s) as (-> & -> & -> & ->). done.
Qed.




(** ** C10 *)










End PlayerFacts.

(** * Properties of the base64 framing *)

Module Base64Facts.
Import Base64 Base64Spec.

Local Open Scope Z_scope.

Example btoa_hello : btoa "Hello" = "SGVsbG8=".
Proof. reflexivity. Qed.

Example atob_hello : atob "SGVs bG8" = Some "Hello".
Proof. reflexivity. Qed.

Example atob_bad_length : atob "SGVsb" = None.
Proof. reflexivity. Qed.

Example node_skips : Buffer_from_base64 "SGV!sbG8=" = char_codes "Hello".
Proof. reflexivity. Qed.

Lemma list_ind3 {A} (P : list A → Prop) :
  P [] → (∀ a, P [a]) → (∀ a b, P [a; b]) →
  (∀ a b c l, P l → P (a :: b :: c :: l)) →
  ∀ l, P l.
Proof.
  intros H0 H1 H2 H3 l.
  enough (P l ∧ (∀ a, P (a :: l)) ∧ (∀ a b, P (a :: b :: l))) by tauto.
  induction l as [|c l (IH0 & IH1 & IH2)]; [done|]. auto.
Qed.

Lemma all_bytes2_spec f a b :
  all_bytes2 f = true → is_byte a → is_byte b → f a b = true.
Proof.
  unfold all_bytes2, is_byte. intros H Ha Hb.
  apply Is_true_true_2, forallb_True in H. rewrite Forall_forall in H.
  assert (a ∈ seqZ 0 256) as Ha' by (apply elem_of_seqZ; lia).
  assert (b ∈ seqZ 0 256) as Hb' by (apply elem_of_seqZ; lia).
  specialize (H a Ha'). apply forallb_True in H. rewrite Forall_forall in H.
  apply Is_true_true_1, (H b Hb').
Qed.

(** The bit operations of the encoder and the decoder on bytes. *)
Lemma sextet_ops a b :
  is_byte a → is_byte b →
  is_sextet (Z.shiftr a 2)
  ∧ is_sextet (Z.shiftl (Z.land a 3) 4)
  ∧ is_sextet (Z.lor (Z.shiftl (Z.land a 3) 4) (Z.shiftr b 4))
  ∧ is_sextet (Z.shiftl (Z.land b 15) 2)
  ∧ is_sextet (Z.lor (Z.shiftl (Z.land a 15) 2) (Z.shiftr b 6))
  ∧ is_sextet (Z.land b 63)
  ∧ Z.lor (Z.shiftl (Z.shiftr a 2) 2)
          (Z.shiftr (Z.shiftl (Z.land a 3) 4) 4) = a
  ∧ Z.lor (Z.shiftl (Z.shiftr a 2) 2)
          (Z.shiftr (Z.lor (Z.shiftl (Z.land a 3) 4) (Z.shiftr b 4)) 4) = a
  ∧ Z.land (Z.lor (Z.shiftl (Z.land a 3) 4) (Z.shiftr b 4)) 15 = Z.shiftr b 4
  ∧ Z.lor (Z.shiftl (Z.shiftr a 4) 4)
          (Z.shiftr (Z.shiftl (Z.land a 15) 2) 2) = a
  ∧ Z.lor (Z.shiftl (Z.shiftr a 4) 4)
          (Z.shiftr (Z.lor (Z.shiftl (Z.land a 15) 2) (Z.shiftr b 6)) 2) = a
  ∧ Z.lor (Z.shiftl (Z.land (Z.lor (Z.shiftl (Z.land a 15) 2) (Z.shiftr b 6)) 3) 6)
          (Z.land b 63) = b.
Proof.
  intros Ha Hb. unfold is_sextet.
  pose (f := λ a b : Z,
    let s1 := Z.shiftr a 2 in
    let s2 := Z.shiftl (Z.land a 3) 4 in
    let s2' := Z.lor s2 (Z.shiftr b 4) in
    let s3 := Z.shiftl (Z.land b 15) 2 in
    let t3 := Z.shiftl (Z.land a 15) 2 in
    let t3' := Z.lor t3 (Z.shiftr b 6) in
    let s4 := Z.land b 63 in
    let small v := (0 <=? v) && (v <? 64) in
    small s1 && small s2 && small s2' && small s3 && small t3' && small s4
    && (Z.lor (Z.shiftl s1 2) (Z.shiftr s2 4) =? a)
    && (Z.lor (Z.shiftl s1 2) (Z.shiftr s2' 4) =? a)
    && (Z.land s2' 15 =? Z.shiftr b 4)
    && (Z.lor (Z.shiftl (Z.shiftr a 4) 4) (Z.shiftr t3 2) =? a)
    && (Z.lor (Z.shiftl (Z.shiftr a 4) 4) (Z.shiftr t3' 2) =? a)
    && (Z.lor (Z.shiftl (Z.land t3' 3) 6) s4 =? b)).
  assert (all_bytes2 f = true) as Hall by (vm_compute; reflexivity).
  pose proof (all_bytes2_spec f a b Hall Ha Hb) as H. unfold f in H. cbv beta zeta in H.
  repeat match goal with
         | H : _ && _ = true |- _ => apply andb_true_iff in H as [? ?]
         | H : (_ <=? _) = true |- _ => apply Z.leb_le in H
         | H : (_ <? _) = true |- _ => apply Z.ltb_lt in H
         | H : (_ =? _) = true |- _ => apply Z.eqb_eq in H
         end.
  split_and!; assumption.
Qed.

Lemma digit_sextet i :
  is_sextet i →
  sextet (digit i) = Some i ∧ is_pad (digit i) = false
  ∧ is_ascii_whitespace (digit i) = false.
Proof.
  intros Hi.
  pose (f := λ i, match sextet (digit i) with
                  | Some j => (j =? i) && negb (is_pad (digit i))
                              && negb (is_ascii_whitespace (digit i))
                  | None => false
                  end).
  assert (forallb f (seqZ 0 64) = true) as Hall by (vm_compute; reflexivity).
  apply Is_true_true_2, forallb_True in Hall. rewrite Forall_forall in Hall.
  assert (i ∈ seqZ 0 64) as Hin by (apply elem_of_seqZ; unfold is_sextet in Hi; lia).
  specialize (Hall i Hin). apply Is_true_true_1 in Hall. unfold f in Hall.
  destruct (sextet (digit i)) as [j|]; [|done].
  apply andb_true_iff in Hall as [[Hj Hp]%andb_true_iff Hw].
  apply Z.eqb_eq in Hj. apply negb_true_iff in Hp, Hw. by subst j.
Qed.

Lemma encode_sextets bs : encode bs = (digit <$> sextets bs) ++ padding bs.
Proof.
  induction bs as [|a|a b|a b c l IH] using list_ind3; try done.
  change (encode (a :: b :: c :: l))
    with (digit (Z.shiftr a 2)
          :: digit (Z.lor (Z.shiftl (Z.land a 3) 4) (Z.shiftr b 4))
          :: digit (Z.lor (Z.shiftl (Z.land b 15) 2) (Z.shiftr c 6))
          :: digit (Z.land c 63) :: encode l).
  by rewrite IH.
Qed.

Lemma sextets_range bs : Forall is_byte bs → Forall is_sextet (sextets bs).
Proof.
  induction bs as [|a|a b|a b c l IH] using list_ind3; intros Hbs.
  - constructor.
  - apply Forall_cons in Hbs as [Ha _].
    destruct (sextet_ops a a Ha Ha) as (?&?&_).
    repeat (constructor; [assumption|]). constructor.
  - apply Forall_cons in Hbs as [Ha [Hb _]%Forall_cons].
    destruct (sextet_ops a b Ha Hb) as (?&?&?&?&_).
    repeat (constructor; [assumption|]). constructor.
  - apply Forall_cons in Hbs as [Ha [Hb [Hc Hl]%Forall_cons]%Forall_cons].
    destruct (sextet_ops a b Ha Hb) as (?&?&?&_).
    destruct (sextet_ops b c Hb Hc) as (_&_&_&_&?&?&_).
    change (sextets (a :: b :: c :: l))
      with (Z.shiftr a 2
            :: Z.lor (Z.shiftl (Z.land a 3) 4) (Z.shiftr b 4)
            :: Z.lor (Z.shiftl (Z.land b 15) 2) (Z.shiftr c 6)
            :: Z.land c 63 :: sextets l).
    repeat (constructor; [assumption|]). auto.
Qed.

Lemma sextets_to_bytes_sextets bs :
  Forall is_byte bs → sextets_to_bytes (sextets bs) = bs.
Proof.
  induction bs as [|a|a b|a b c l IH] using list_ind3; intros Hbs.
  - done.
  - apply Forall_cons in Hbs as [Ha _].
    destruct (sextet_ops a a Ha Ha) as (_&_&_&_&_&_&H&_). simpl. by rewrite H.
  - apply Forall_cons in Hbs as [Ha [Hb _]%Forall_cons].
    destruct (sextet_ops a b Ha Hb) as (_&_&_&_&_&_&_&H1&H2&_).
    destruct (sextet_ops b b Hb Hb) as (_&_&_&_&_&_&_&_&_&H3&_).
    simpl. by rewrite H1, H2, H3.
  - apply Forall_cons in Hbs as [Ha [Hb [Hc Hl]%Forall_cons]%Forall_cons].
    destruct (sextet_ops a b Ha Hb) as (_&_&_&_&_&_&_&H1&H2&_).
    destruct (sextet_ops b c Hb Hc) as (_&_&_&_&_&_&_&_&_&_&H3&H4).
    change (sextets_to_bytes (sextets (a :: b :: c :: l)))
      with (Z.lor (Z.shiftl (Z.shiftr a 2) 2)
                  (Z.shiftr (Z.lor (Z.shiftl (Z.land a 3) 4) (Z.shiftr b 4)) 4)
            :: Z.lor (Z.shiftl (Z.land (Z.lor (Z.shiftl (Z.land a 3) 4) (Z.shiftr b 4)) 15) 4)
                     (Z.shiftr (Z.lor (Z.shiftl (Z.land b 15) 2) (Z.shiftr c 6)) 2)
            :: Z.lor (Z.shiftl (Z.land (Z.lor (Z.shiftl (Z.land b 15) 2) (Z.shiftr c 6)) 3) 6)
                     (Z.land c 63)
            :: sextets_to_bytes (sextets l)).
    by rewrite H1, H2, H3, H4, IH.
Qed.

Lemma sextets_length bs :
  (length (sextets bs) mod 4 ≠ 1
   ∧ (length (sextets bs) + length (padding bs)) mod 4 = 0)%nat.
Proof.
  induction bs as [|a|a b|a b c l IH] using list_ind3; try done.
  change (length (sextets (a :: b :: c :: l))) with (4 + length (sextets l))%nat.
  change (padding (a :: b :: c :: l)) with (padding l).
  replace (4 + length (sextets l) + length (padding l))%nat
    with (length (sextets l) + length (padding l) + 1 * 4)%nat by lia.
  replace (4 + length (sextets l))%nat with (length (sextets l) + 1 * 4)%nat by lia.
  by rewrite !Nat.Div0.mod_add.
Qed.

Lemma padding_cases bs :
  padding bs = [] ∨ padding bs = ["="%char] ∨ padding bs = ["="; "="]%char.
Proof. induction bs as [|a|a b|a b c l IH] using list_ind3; auto. Qed.

Lemma strip_padding_app l pad :
  Forall (λ c, is_pad c = false) l →
  pad = [] ∨ pad = ["="%char] ∨ pad = ["="; "="]%char →
  strip_padding (l ++ pad) = l.
Proof.
  intros Hl Hpad. unfold strip_padding. rewrite rev_app_distr.
  assert (Forall (λ c, is_pad c = false) (rev l)) as Hr by by apply Forall_rev.
  assert (rev (rev l) = l) as Hrr by apply rev_involutive.
  destruct Hpad as [->|[->| ->]]; simpl.
  - rewrite app_nil_r.
    destruct (rev l) as [|p [|q rest]]; [done| |];
      apply Forall_cons in Hr as [-> _]; done.
  - destruct (rev l) as [|q rest]; [by rewrite <- Hrr|].
    apply Forall_cons in Hr as [-> _]. done.
  - done.
Qed.

Lemma filter_not_whitespace l :
  Forall (λ c, is_ascii_whitespace c = false) l →
  filter (λ c, is_ascii_whitespace c = false) l = l.
Proof.
  induction 1 as [|c l Hc _ IH]; [done|].
  by rewrite filter_cons, decide_True, IH.
Qed.

Lemma char_codes_binary_string bs :
  Forall is_byte bs → char_codes (binary_string bs) = bs.
Proof.
  unfold char_codes, binary_string.
  rewrite list_ascii_of_string_of_list_ascii.
  induction 1 as [|b bs Hb _ IH]; [done|].
  rewrite !fmap_cons, IH. f_equal. unfold charCode, fromCharCode.
  unfold is_byte in Hb. rewrite N_ascii_embedding by lia. lia.
Qed.

(** What [btoa] writes, [atob] reads back. *)
Lemma atob_btoa bs :
  Forall is_byte bs →
  atob (btoa (binary_string bs)) = Some (binary_string bs).
Proof.
  intros Hbs. unfold btoa, atob.
  rewrite char_codes_binary_string, list_ascii_of_string_of_list_ascii by done.
  rewrite encode_sextets.
  pose proof (sextets_range bs Hbs) as Hss.
  assert (Forall (λ c, is_pad c = false ∧ is_ascii_whitespace c = false
                       ∧ ∃ i, c = digit i ∧ is_sextet i)
            (digit <$> sextets bs)) as Hd.
  { apply Forall_fmap. eapply Forall_impl; [exact Hss|]. simpl.
    intros i Hi. destruct (digit_sextet i Hi) as (_ & ? & ?). eauto. }
  rewrite filter_not_whitespace.
  2:{ apply Forall_app. split; [eapply Forall_impl; [exact Hd|naive_solver]|].
      destruct (padding_cases bs) as [->|[->| ->]]; by repeat constructor. }
  destruct (sextets_length bs) as [Hl1 Hl2].
  rewrite length_app, length_fmap.
  rewrite (proj2 (Nat.eqb_eq _ _) Hl2).
  rewrite strip_padding_app;
    [|eapply Forall_impl; [exact Hd|naive_solver]|apply padding_cases].
  rewrite length_fmap. rewrite (proj2 (Nat.eqb_neq _ _) Hl1).
  rewrite mapM_fmap_Forall_Some.
  2:{ eapply Forall_impl; [exact Hss|]. intros i Hi. apply (digit_sextet i Hi). }
  simpl. by rewrite sextets_to_bytes_sextets.
Qed.

End Base64Facts.

(** * Properties of the codec *)

Module CodecFacts.
Import Wire GenAI Num Codec CodecSpec Base64Spec.

Example sample16_values :
  sample16 <$> [NaN; Inf false; Inf true; Fin 1; Fin (-1); Fin (1 # 2);
                Fin (-1 # 2); Fin 0; Fin 3; Fin (-1 # 3)]
  = [0; 32767; -32768; 32767; -32768; 16383; -16384; 0; 32767; -10922]%Z.
Proof. reflexivity. Qed.

Example encode_four :
  float32ToPCM16Base64 [NaN; Inf false; Inf true; Fin (-1 # 2)] = "AAD/fwCAAMA=".
Proof. reflexivity. Qed.

Lemma truncate_bounds q a b :
  (inject_Z a <= q)%Q → (q <= inject_Z b)%Q → (a ≤ truncate q ≤ b)%Z.
Proof.
  destruct q as [n d]. unfold Qle, truncate. simpl. intros Ha Hb. split.
  - apply Z.quot_le_lower_bound; lia.
  - apply Z.quot_le_upper_bound; lia.
Qed.

Lemma wrap16_small z : (-32768 ≤ z ≤ 32767)%Z → wrap16 z = z.
Proof. intros H. unfold wrap16. rewrite Z.mod_small; lia. Qed.

Lemma wrap16_range z : (-32768 ≤ wrap16 z ≤ 32767)%Z.
Proof. unfold wrap16. pose proof (Z.mod_pos_bound (z + 32768) 65536). lia. Qed.

Lemma lt_Fin x y : lt (Fin x) (Fin y) = negb (Qle_bool y x).
Proof.
  unfold lt. destruct (x ?= y)%Q eqn:E.
  - apply Qeq_alt in E. symmetry. apply negb_false_iff, Qle_bool_iff.
    rewrite E. apply Qle_refl.
  - apply Qlt_alt in E. symmetry. apply negb_true_iff, not_true_is_false.
    rewrite Qle_bool_iff. by apply Qlt_not_le.
  - apply Qgt_alt in E. symmetry. apply negb_false_iff, Qle_bool_iff.
    by apply Qlt_le_weak.
Qed.

Lemma sample16_quantize x : sample16 x = quantize x.
Proof.
  destruct x as [|[]|q]; try done.
  unfold sample16, clamp, quantize. unfold Math_min at 1.
  rewrite lt_Fin.
  destruct (Qle_bool 1 q) eqn:H1; simpl negb; cbv iota; [done|].
  unfold Math_max. rewrite lt_Fin.
  destruct (Qle_bool q (-1)) eqn:H2; simpl negb; cbv iota; [done|].
  unfold scale. rewrite lt_Fin.
  apply not_true_iff_false in H1, H2. rewrite Qle_bool_iff in H1, H2.
  apply Qnot_le_lt in H1, H2.
  destruct (Qle_bool 0 q) eqn:H3; simpl negb; cbv iota; simpl ToInt16.
  - apply Qle_bool_iff in H3. apply wrap16_small.
    apply truncate_bounds;
      destruct q as [n d]; unfold Qle, Qlt in *; simpl in *; lia.
  - apply not_true_iff_false in H3. rewrite Qle_bool_iff in H3.
    apply Qnot_le_lt in H3. apply wrap16_small.
    apply truncate_bounds;
      destruct q as [n d]; unfold Qle, Qlt in *; simpl in *; lia.
Qed.

Lemma sample16_range x : (-32768 ≤ sample16 x ≤ 32767)%Z.
Proof.
  unfold sample16, ToInt16. destruct (scale (clamp x)); try lia.
  apply wrap16_range.
Qed.

Lemma le_bytes_int16 v :
  (-32768 ≤ v ≤ 32767)%Z →
  ∃ lo hi, le_bytes v = [lo; hi]
           ∧ (0 ≤ lo < 256)%Z ∧ (0 ≤ hi < 256)%Z ∧ int16_le lo hi = v.
Proof.
  intros Hv. eexists _, _. split; [reflexivity|].
  change 255%Z with (Z.ones 8). rewrite !Z.land_ones by lia.
  rewrite Z.shiftr_div_pow2 by lia. unfold int16_le, wrap16.
  change (2 ^ 8)%Z with 256%Z.
  split_and!; try (apply Z.mod_pos_bound; lia).
  Z.div_mod_to_equations. lia.
Qed.

Lemma pcm16_bytes_cons x xs :
  pcm16_bytes (x :: xs) = le_bytes (sample16 x) ++ pcm16_bytes xs.
Proof. done. Qed.

Lemma pcm16_bytes_lookup xs i x :
  xs !! i = Some x →
  ∃ lo hi, pcm16_bytes xs !! (2 * i)%nat = Some lo
           ∧ pcm16_bytes xs !! (2 * i + 1)%nat = Some hi
           ∧ (0 ≤ lo < 256)%Z ∧ (0 ≤ hi < 256)%Z
           ∧ int16_le lo hi = sample16 x.
Proof.
  revert i. induction xs as [|y xs IH]; intros i; [done|].
  rewrite pcm16_bytes_cons. destruct i as [|i].
  - intros [= ->].
    destruct (le_bytes_int16 (sample16 x) (sample16_range x))
      as (lo & hi & -> & ? & ? & ?).
    by exists lo, hi.
  - intros Hx. destruct (IH _ Hx) as (lo & hi & H1 & H2 & ?).
    exists lo, hi. split_and!; try tauto.
    + replace (2 * S i)%nat with (S (S (2 * i))) by lia. done.
    + replace (2 * S i + 1)%nat with (S (S (2 * i + 1))) by lia. done.
Qed.

Lemma pcm16_bytes_length xs : length (pcm16_bytes xs) = (2 * length xs)%nat.
Proof.
  induction xs as [|x xs IH]; [done|].
  rewrite pcm16_bytes_cons, length_app, IH. simpl. lia.
Qed.

Lemma pcm16_bytes_are_bytes xs : Forall is_byte (pcm16_bytes xs).
Proof.
  induction xs as [|x xs IH]; [constructor|].
  rewrite pcm16_bytes_cons.
  destruct (le_bytes_int16 (sample16 x) (sample16_range x))
    as (lo & hi & -> & ? & ? & _).
  simpl. repeat (constructor; [assumption|]). exact IH.
Qed.

(** The browser's decoder reads the encoder's string back into the
    encoder's bytes. *)
Lemma base64_of_pcm16 xs :
  base64ToArrayBuffer (float32ToPCM16Base64 xs) = Some (pcm16_bytes xs).
Proof.
  unfold base64ToArrayBuffer, float32ToPCM16Base64.
  pose proof (pcm16_bytes_are_bytes xs) as Hb.
  rewrite Base64Facts.atob_btoa by done. simpl.
  by rewrite Base64Facts.char_codes_binary_string.
Qed.

(** The products of the loop are exact in double precision: an element
    of a [Float32Array] has a mantissa below [2^24]; scaled by 32767 the
    mantissa stays below [2^53] with the same exponent, and scaling by
    [32768 = 2^15] only moves the exponent. *)
Lemma scale_is_exact negative m e :
  (0 ≤ m < 2 ^ 24)%Z →
  (float_value negative m e * 32767 == float_value negative (m * 32767) e)%Q
  ∧ (float_value negative m e * 32768 == float_value negative m (e + 15))%Q
  ∧ (0 ≤ m * 32767 < 2 ^ 53)%Z.
Proof.
  intros Hm. unfold float_value. split_and!.
  - rewrite inject_Z_mult. change (inject_Z 32767) with 32767%Q. ring.
  - rewrite Qpower_plus by done. change (2 ^ 15)%Q with 32768%Q. ring.
  - lia.
  - lia.
Qed.

(** ** C8 *)

(** C8.  For every list of samples the encoder is a total function of
    its input.  Each sample becomes one signed 16-bit integer: 0 for NaN,
    32767 for a sample of 1 or more, -32768 for a sample of -1 or less,
    and otherwise the integer part of the sample times 32767 (sample not
    negative) or times 32768 (sample negative).  The integers are written
    in order, two bytes each, low byte first, and that byte sequence is
    what the returned base64 string carries: decoding the string gives
    the bytes back. *)
Theorem encode_clamps_and_scales (float32 : list number) :
  (∀ x, sample16 x = quantize x ∧ (-32768 ≤ sample16 x ≤ 32767)%Z)
  ∧ sample16 NaN = 0%Z
  ∧ length (pcm16_bytes float32) = (2 * length float32)%nat
  ∧ (∀ i x, float32 !! i = Some x →
       ∃ lo hi, pcm16_bytes float32 !! (2 * i)%nat = Some lo
                ∧ pcm16_bytes float32 !! (2 * i + 1)%nat = Some hi
                ∧ (0 ≤ lo < 256)%Z ∧ (0 ≤ hi < 256)%Z
                ∧ int16_le lo hi = quantize x)
  ∧ base64ToArrayBuffer (float32ToPCM16Base64 float32)
    = Some (pcm16_bytes float32).
Proof.
  split_and!; try done.
  - intros x. split; [apply sample16_quantize|apply sample16_range].
  - apply pcm16_bytes_length.
  - intros i x Hx. rewrite <- sample16_quantize. by apply pcm16_bytes_lookup.
  - apply base64_of_pcm16.
Qed.

Lemma encode_clamps_and_scales_witness :
  let float32 := [NaN; Fin (-1 # 2); Fin 3] in
  float32 !! 1%nat = Some (Fin (-1 # 2))
  ∧ ∃ lo hi, pcm16_bytes float32 !! 2%nat = Some lo
             ∧ pcm16_bytes float32 !! 3%nat = Some hi
             ∧ (0 ≤ lo < 256)%Z ∧ (0 ≤ hi < 256)%Z
             ∧ int16_le lo hi = quantize (Fin (-1 # 2)).
Proof.
  intros float32. split; [reflexivity|].
  destruct (encode_clamps_and_scales float32) as (_ & _ & _ & H & _).
  apply (H 1%nat (Fin (-1 # 2))). reflexivity.
Defined.

(** ** C9 *)

Lemma decode_length bs :
  decode bs = None ↔ (length bs mod 2 = 1)%nat.
Proof.
  induction bs as [bs IH] using (induction_ltof1 _ (@length Z)).
  unfold ltof in IH. destruct bs as [|lo [|hi rest]]; simpl decode.
  - done.
  - done.
  - rewrite fmap_None, IH by (simpl; lia).
    change (length (lo :: hi :: rest)) with (2 + length rest)%nat.
    by rewrite Nat.Div0.add_mod, Nat.Div0.mod_same, Nat.add_0_l, Nat.Div0.mod_mod.
Qed.

Lemma decode_pcm16 xs :
  decode (pcm16_bytes xs)
  = Some ((λ x, inject_Z (sample16 x) / 32768)%Q <$> xs).
Proof.
  induction xs as [|x xs IH]; [done|].
  rewrite pcm16_bytes_cons.
  destruct (le_bytes_int16 (sample16 x) (sample16_range x))
    as (lo & hi & -> & _ & _ & Hv).
  simpl. by rewrite IH, Hv.
Qed.

Lemma strip_padding_keeps c l :
  c ∈ l → Base64.is_pad c = false → c ∈ Base64.strip_padding l.
Proof.
  intros Hc Hp. unfold Base64.strip_padding.
  destruct (rev l) as [|p [|q rest]] eqn:Hr; [done| |].
  - destruct (Base64.is_pad p) eqn:Hpp; [|done].
    assert (l = rev [p]) as -> by (by rewrite <- Hr, rev_involutive).
    apply list_elem_of_singleton in Hc. congruence.
  - assert (l = rev (p :: q :: rest)) as -> by (by rewrite <- Hr, rev_involutive).
    destruct (Base64.is_pad p) eqn:Hpp; [|done].
    simpl in Hc. apply elem_of_app in Hc as [Hc|Hc].
    + destruct (Base64.is_pad q) eqn:Hq; [|done].
      apply elem_of_app in Hc as [Hc|Hc]; [done|].
      apply list_elem_of_singleton in Hc. congruence.
    + apply list_elem_of_singleton in Hc. congruence.
Qed.

Lemma atob_invalid s c :
  c ∈ list_ascii_of_string s → invalid_char c → Base64.atob s = None.
Proof.
  intros Hc (Hs & Hp & Hw). unfold Base64.atob.
  set (d := filter _ _).
  assert (c ∈ d) as Hd by by apply list_elem_of_filter.
  set (d' := if (length d mod 4 =? 0)%nat then _ else _).
  assert (c ∈ d') as Hd'.
  { unfold d'. case_match; [by apply strip_padding_keeps|done]. }
  case_match; [done|].
  assert (mapM Base64.sextet d' = None) as ->; [|done].
  apply eq_None_not_Some. rewrite mapM_is_Some, Forall_forall.
  intros Hall. specialize (Hall c Hd'). simpl in Hall. rewrite Hs in Hall.
  by destruct Hall.
Qed.

(** C9, as stated, fails on the relay: a base64 field made of characters
    that base64 cannot contain is rejected by the browser's decoder, but
    the relay's decoder returns an (empty) buffer for it, and the relay
    sends that buffer upstream without an error and without a status. *)
Lemma relay_accepts_invalid_base64 :
  let c := Relay.run [Relay.ConnectOk 0] in
  let c' := Relay.step c (Relay.WsMessage (audio_frame "!!!!")) in
  Forall invalid_char (list_ascii_of_string "!!!!")
  ∧ base64ToArrayBuffer "!!!!" = None
  ∧ Relay.toUpstream c' = [(0%nat, InMedia [] "audio/pcm")]
  ∧ Relay.toClient c' = Relay.toClient c
  ∧ Relay.unhandled c' = [].
Proof. split; [by repeat constructor|by vm_compute]. Qed.

(** C9, amended.  [decode] fails exactly when the number of bytes is odd;
    on an even number it gives one sample per pair of bytes, the signed
    little-endian 16-bit integer divided by 32768, and so it maps the
    encoder's bytes back to the quantised samples over 32768.  The
    browser's [base64ToArrayBuffer] fails on a string that contains a
    character outside the alphabet, padding and white space, and the
    listener then schedules nothing.  The relay's audio branch never
    fails: for every non-empty base64 string, valid or not, it sends the
    bytes its lenient decoder returns to the upstream session and sends
    no status. *)
Theorem decoding_failures (bs : Base64.bytes) (base64 : string) :
  (decode bs = None ↔ (length bs mod 2 = 1)%nat)
  ∧ (∀ lo hi rest,
       decode (lo :: hi :: rest)
       = cons (inject_Z (int16_le lo hi) / 32768)%Q <$> decode rest)
  ∧ (∀ xs, decode (pcm16_bytes xs)
           = Some ((λ x, inject_Z (quantize x) / 32768)%Q <$> xs))
  ∧ (∀ c, c ∈ list_ascii_of_string base64 → invalid_char c →
          base64ToArrayBuffer base64 = None
          ∧ WsClient.audio_begin base64 = None)
  ∧ (∀ evs sid,
       let c := Relay.run evs in
       Relay.session c = Some sid → base64 ≠ EmptyString →
       Relay.step c (Relay.WsMessage (audio_frame base64))
       = Relay.set_toUpstream
           (Relay.toUpstream c
              ++ [(sid, InMedia (Base64.Buffer_from_base64 base64) "audio/pcm")]) c).
Proof.
  split_and!.
  - apply decode_length.
  - done.
  - intros xs. rewrite decode_pcm16. f_equal. apply list_fmap_ext.
    intros _ x _. by rewrite sample16_quantize.
  - intros c Hc Hbad.
    assert (base64ToArrayBuffer base64 = None) as H.
    { unfold base64ToArrayBuffer. by rewrite (atob_invalid _ c). }
    split; [done|]. unfold WsClient.audio_begin. by case_match.
  - intros evs sid c Hs Hne.
    pose proof (RelayFacts.session_listening evs sid Hs) as Hl. fold c in Hl.
    simpl. rewrite Hl. unfold Relay.on_ws_message. rewrite Hs. simpl.
    destruct base64 as [|a rest]; [done|]. done.
Qed.

Lemma decoding_failures_witness :
  let c := Relay.run [Relay.ConnectOk 0] in
  ("!"%char ∈ list_ascii_of_string "AA!A" ∧ invalid_char "!")
  ∧ base64ToArrayBuffer "AA!A" = None
  ∧ Relay.toUpstream (Relay.step c (Relay.WsMessage (audio_frame "AA!A")))
    = [(0%nat, InMedia (Base64.Buffer_from_base64 "AA!A") "audio/pcm")].
Proof.
  intros c.
  assert ("!"%char ∈ list_ascii_of_string "AA!A" ∧ invalid_char "!") as [H1 H2].
  { split; [simpl; set_solver|by repeat split]. }
  destruct (decoding_failures [] "AA!A") as (_ & _ & _ & Ha & Hr).
  split; [done|]. split; [by apply (Ha "!"%char)|].
  unfold c. by rewrite (Hr [Relay.ConnectOk 0] 0%nat).
Defined.

End CodecFacts.

(** * Further properties of the relay *)

Module RelayMore.
Import Wire GenAI Relay RelaySpec RelayMoreSpec RelayFacts.

Lemma run_app evs evs' : run (evs ++ evs') = foldl step (run evs) evs'.
Proof. unfold run. by rewrite foldl_app. Qed.

(** ** Inbound forwarding *)

(** X1.  Valid text and audio frames that arrive while a session is held
    are passed to that session, one input per frame and in the order of
    arrival; nothing is sent to the browser for them and the session
    stays the same. *)
Theorem valid_frames_forwarded_in_order (evs : list Event) (sid : nat)
    (raws : list RawData) (inputs : list RealtimeInput) :
  let c := run evs in
  session c = Some sid →
  Forall2 carries raws inputs →
  foldl step c (WsMessage <$> raws)
  = set_toUpstream (toUpstream c ++ ((λ inp, (sid, inp)) <$> inputs)) c.
Proof.
  intros c Hs Hall. unfold c in *. clear c. revert evs Hs.
  induction Hall as [|raw inp raws inputs (f & Hf & Hin) _ IH]; intros evs Hs.
  - simpl. rewrite app_nil_r. by destruct (run evs).
  - rewrite fmap_cons.
    change (foldl step (run evs) (WsMessage raw :: (WsMessage <$> raws)))
      with (foldl step (step (run evs) (WsMessage raw)) (WsMessage <$> raws)).
    pose proof (session_listening evs sid Hs) as Hl.
    assert (step (run evs) (WsMessage raw)
            = set_toUpstream (toUpstream (run evs) ++ [(sid, inp)]) (run evs)) as Hstep.
    { simpl. rewrite Hl. unfold on_ws_message. rewrite Hs, Hf.
      destruct f as [t|b|]; simpl in Hin; by simplify_eq. }
    rewrite <- run_snoc in Hstep |- *.
    rewrite IH by (by rewrite Hstep).
    rewrite Hstep. simpl. by rewrite <- app_assoc.
Qed.

Lemma valid_frames_forwarded_in_order_witness :
  let c := run [ConnectOk 0] in
  let raws := [Some (JObj [("type", JStr "text"); ("text", JStr "hi")]);
               Some (JObj [("type", JStr "audio"); ("base64", JStr "AAAA")])] in
  let inputs := [InText "hi"; InMedia [0; 0; 0]%Z "audio/pcm"] in
  session c = Some 0 ∧ Forall2 carries raws inputs
  ∧ toUpstream (foldl step c (WsMessage <$> raws))
    = [(0, InText "hi"); (0, InMedia [0; 0; 0]%Z "audio/pcm")]
  ∧ toClient (foldl step c (WsMessage <$> raws)) = toClient c.
Proof.
  intros c raws inputs.
  assert (Forall2 carries raws inputs) as Hall.
  { repeat constructor; eexists; split; reflexivity. }
  split; [reflexivity|]. split; [exact Hall|]. unfold c.
  rewrite (valid_frames_forwarded_in_order [ConnectOk 0] 0 raws inputs eq_refl Hall).
  split; reflexivity.
Defined.

(** ** After the transport has closed *)

Lemma closed_socket_step c ev :
  ready c = false →
  ready (step c ev) = false ∧ toClient (step c ev) = toClient c.
Proof.
  intros Hr.
  assert (∀ msg c', ready c' = false → send msg c' = c') as Hsend.
  { intros msg c' Hc'. unfold send. by rewrite Hc'. }
  destruct ev as [sid|sid reason|raw| |sid|sid msg|sid reason|sid m]; simpl.
  - destruct (origin_of sid c) as [o|]; [|done].
    unfold on_connect_ok. rewrite Hsend by done. by destruct o.
  - destruct (origin_of sid c) as [o|]; [|done].
    unfold on_connect_fail. destruct o; [by rewrite Hsend|done].
  - destruct (listening c); [|done]. unfold on_ws_message.
    destruct (session c) as [sid|]; [|done].
    destruct (decode_frame raw) as [[t|b|]|]; try done.
    by rewrite Hsend.
  - split; [done|]. destruct (listening c); [|done].
    unfold on_ws_close. by destruct (session c).
  - case_match; [|done]. by rewrite Hsend.
  - case_match; [|done]. by rewrite Hsend.
  - case_match; [|done]. by rewrite Hsend.
  - case_match; [|done]. split.
    + by destruct (onmessage_only_sends m c) as (_ & -> & _).
    + rewrite onmessage_toClient, Hr. by rewrite app_nil_r.
Qed.

(** X2.  Once the transport has closed, the socket never counts as open
    again and no frame is sent to the browser, whatever happens
    afterwards: connect calls that resolve or fail, callbacks and
    messages of upstream sessions. *)
Theorem nothing_sent_after_close (evs evs' : list Event) :
  ready (run (evs ++ WsClose :: evs')) = false
  ∧ toClient (run (evs ++ WsClose :: evs')) = toClient (run (evs ++ [WsClose])).
Proof.
  induction evs' as [|ev evs' [IH1 IH2]] using rev_ind.
  - by rewrite run_snoc.
  - replace (evs ++ WsClose :: evs' ++ [ev])
      with ((evs ++ WsClose :: evs') ++ [ev]) by by rewrite <- app_assoc.
    rewrite run_snoc.
    destruct (closed_socket_step (run (evs ++ WsClose :: evs')) ev IH1) as [-> ->].
    done.
Qed.

(** ** Sessions the relay has closed *)

Lemma on_connect_ok_fields sid o c :
  session (on_connect_ok sid o c) = Some sid
  ∧ awaiting (on_connect_ok sid o c) = awaiting c
  ∧ closed (on_connect_ok sid o c) = closed c
  ∧ connects (on_connect_ok sid o c) = connects c
  ∧ toUpstream (on_connect_ok sid o c) = toUpstream c.
Proof. unfold on_connect_ok. destruct o; simpl; by autorewrite with relay. Qed.

Lemma on_connect_fail_fields reason o c :
  session (on_connect_fail reason o c) = session c
  ∧ awaiting (on_connect_fail reason o c) = awaiting c
  ∧ closed (on_connect_fail reason o c) = closed c
  ∧ connects (on_connect_fail reason o c) = connects c
  ∧ toUpstream (on_connect_fail reason o c) = toUpstream c.
Proof. unfold on_connect_fail. destruct o; simpl; by autorewrite with relay. Qed.

Lemma settle_awaiting sid o c :
  awaiting c = [(sid, o)] → awaiting (settle sid c) = [].
Proof.
  intros Ha. simpl. rewrite Ha, filter_cons. simpl.
  by rewrite decide_False by naive_solver.
Qed.

Lemma unclosed_step evs ev :
  unclosed (run evs) → unclosed (step (run evs) ev).
Proof.
  set (c := run evs). intros Hu Hr'.
  pose proof (Inv_run evs) as HI. fold c in HI.
  assert (ready c = true) as Hr.
  { destruct (ready c) eqn:E; [done|].
    destruct (closed_socket_step c ev E). congruence. }
  destruct (Hu Hr) as [Hheld Hwait]. clear Hu.
  destruct ev as [sid|sid reason|raw| |sid|sid msg|sid reason|sid m];
    cbn [step].
  - destruct (origin_of sid c) as [o|] eqn:Ho; [|by split].
    destruct (origin_of_awaiting _ _ _ HI Ho) as (Ha & Hs & Hl & Hlt).
    assert (sid ∉ closed c) as Hsid by (apply (Hwait sid o); rewrite Ha; set_solver).
    destruct (on_connect_ok_fields sid o (settle sid c)) as (-> & -> & -> & _).
    rewrite (settle_awaiting _ _ _ Ha). split.
    + by intros ? [= <-].
    + intros ?? []%not_elem_of_nil.
  - destruct (origin_of sid c) as [o|] eqn:Ho; [|by split].
    destruct (origin_of_awaiting _ _ _ HI Ho) as (Ha & Hs & Hl & Hlt).
    destruct (on_connect_fail_fields reason o (settle sid c)) as (-> & -> & -> & _).
    rewrite (settle_awaiting _ _ _ Ha). split.
    + simpl. by rewrite Hs.
    + intros ?? []%not_elem_of_nil.
  - destruct (listening c); [|by split]. unfold on_ws_message.
    destruct (session c) as [sid|] eqn:Hs; [|split; by rewrite ?Hs].
    destruct (decode_frame raw) as [[t|b|]|];
      [split; simpl; by rewrite ?Hs|split; simpl; by rewrite ?Hs| |].
    + pose proof (Inv_no_await _ _ HI Hs) as Ha.
      unfold openSession. simpl. rewrite Ha. simpl. split; [done|].
      intros sid' o [[= -> ->]|[]%not_elem_of_nil]%elem_of_cons.
      intros [Heq|Hin]%elem_of_cons.
      * apply (inv_session _ HI) in Hs. lia.
      * apply (inv_closed _ HI) in Hin. lia.
    + autorewrite with relay. split; by rewrite ?Hs.
  - by simpl in Hr'.
  - case_match; [|by split]. autorewrite with relay. by split.
  - case_match; [|by split]. autorewrite with relay. by split.
  - case_match; [|by split]. autorewrite with relay. by split.
  - case_match; [|by split].
    destruct (onmessage_only_sends m c) as (-> & _ & _ & -> & _ & _ & -> & _).
    by split.
Qed.

(** X3.  While the socket to the browser is open, the session that the
    [session] variable holds is one on which the relay has not called
    [close()], and so is a session whose connect call is pending; every
    input passed upstream so far went to a session that a connect call
    had created. *)
Theorem held_session_not_closed (evs : list Event) :
  let c := run evs in
  unclosed c
  ∧ ∀ sid inp, (sid, inp) ∈ toUpstream c → sid < connects c.
Proof.
  induction evs as [|ev evs [IH1 IH2]] using rev_ind.
  - split.
    + intros _. split; intros; simpl; apply not_elem_of_nil.
    + intros sid inp []%not_elem_of_nil.
  - rewrite run_snoc. simpl in *. split; [by apply unclosed_step|].
    pose proof (Inv_run evs) as HI. set (c := run evs) in *.
    assert (connects c ≤ connects (step c ev)) as Hmono.
    { destruct ev as [sid|sid reason|raw| |sid|sid msg|sid reason|sid m]; simpl.
      - destruct (origin_of sid c) as [[]|]; [| |done];
          unfold on_connect_ok; simpl; by autorewrite with relay.
      - destruct (origin_of sid c) as [[]|]; [| |done];
          unfold on_connect_fail; simpl; by autorewrite with relay.
      - destruct (listening c); [|done]. unfold on_ws_message.
        destruct (session c); [|done].
        destruct (decode_frame raw) as [[t|b|]|]; simpl; try done.
        + unfold openSession. simpl. lia.
        + by autorewrite with relay.
      - destruct (listening c); [|done]. unfold on_ws_close.
        by destruct (session c).
      - case_match; [|done]. by autorewrite with relay.
      - case_match; [|done]. by autorewrite with relay.
      - case_match; [|done]. by autorewrite with relay.
      - case_match; [|done].
        by destruct (onmessage_only_sends m c) as (_ & _ & _ & _ & -> & _). }
    intros sid inp Hin.
    assert ((sid, inp) ∈ toUpstream c
            ∨ (session c = Some sid)) as [Hold|Hnew].
    { destruct ev as [sid'|sid' reason|raw| |sid'|sid' msg|sid' reason|sid' m];
        simpl in Hin.
      - left. destruct (origin_of sid' c) as [[]|]; [| |done];
          unfold on_connect_ok in Hin; simpl in Hin;
          by autorewrite with relay in Hin.
      - left. destruct (origin_of sid' c) as [[]|]; [| |done];
          unfold on_connect_fail in Hin; simpl in Hin;
          by autorewrite with relay in Hin.
      - destruct (listening c); [|by left]. unfold on_ws_message in Hin.
        destruct (session c) as [s|] eqn:Hs; [|by left].
        destruct (decode_frame raw) as [[t|b|]|]; simpl in Hin.
        + apply elem_of_app in Hin as [?|[= <- _]%list_elem_of_singleton]; auto.
        + apply elem_of_app in Hin as [?|[= <- _]%list_elem_of_singleton]; auto.
        + left. unfold openSession in Hin. by simpl in Hin.
        + left. by autorewrite with relay in Hin.
      - left. destruct (listening c); [|done]. unfold on_ws_close in Hin.
        by destruct (session c).
      - left. case_match; [|done]. by autorewrite with relay in Hin.
      - left. case_match; [|done]. by autorewrite with relay in Hin.
      - left. case_match; [|done]. by autorewrite with relay in Hin.
      - left. case_match; [|done].
        by destruct (onmessage_only_sends m c) as (_&_&_&_&_&_&_& <- &_). }
    + apply IH2 in Hold. fold c in Hold. lia.
    + apply (inv_session _ HI) in Hnew. lia.
Qed.

Lemma held_session_not_closed_witness :
  let c := run [ConnectOk 0; WsMessage reset_frame; ConnectOk 1] in
  ready c = true ∧ session c = Some 1 ∧ closed c = [0] ∧ 1 ∉ closed c.
Proof.
  intros c. split_and!; try reflexivity.
  destruct (held_session_not_closed
              [ConnectOk 0; WsMessage reset_frame; ConnectOk 1]) as [Hu _].
  destruct Hu as [Hheld _]; [reflexivity|]. by apply Hheld.
Defined.

(** ** A reset whose connect call fails *)





(** ** A session that the service closes *)

(** X5.  When the service closes the session that is held, the browser
    gets the status [Upstream closed: <reason>] and nothing else happens:
    the session variable keeps the dead session, no connect call is
    made, and no session is live until the browser sends a reset.  A text
    frame that arrives next is still passed to the dead session. *)
Theorem upstream_close_not_recovered (evs : list Event) (sid : nat)
    (reason t : string) :
  let c := run evs in
  session c = Some sid → ready c = true → t ≠ EmptyString →
  let c' := step c (UpClose sid reason) in
  toClient c' = toClient c ++ [Status ("Upstream closed: " +:+ reason)]
  ∧ session c' = Some sid ∧ live c' = ∅
  ∧ awaiting c' = [] ∧ connects c' = connects c ∧ closed c' = closed c
  ∧ toUpstream
      (step c' (WsMessage (Some (JObj [("type", JStr "text"); ("text", JStr t)]))))
    = toUpstream c ++ [(sid, InText t)].
Proof.
  intros c Hs Hr Ht c'.
  pose proof (Inv_run evs) as HI. fold c in HI.
  pose proof (session_listening evs sid Hs) as Hl. fold c in Hl.
  assert (sid < connects c) as Hlt by by apply HI.
  assert (c' = send (Status ("Upstream closed: " +:+ reason))
                 (set_live (live c ∖ {[sid]}) c)) as Hc'.
  { unfold c'. simpl. by rewrite (proj2 (Nat.ltb_lt _ _) Hlt). }
  split_and!.
  - rewrite Hc', send_toClient. simpl. by rewrite Hr.
  - rewrite Hc'. by autorewrite with relay.
  - rewrite Hc'. autorewrite with relay. simpl. by apply Inv_live_held.
  - rewrite Hc'. autorewrite with relay. simpl. by eapply Inv_no_await.
  - rewrite Hc'. by autorewrite with relay.
  - rewrite Hc'. by autorewrite with relay.
  - cbn [step]. assert (listening c' = true) as -> by (rewrite Hc'; by autorewrite with relay).
    unfold on_ws_message.
    assert (session c' = Some sid) as -> by (rewrite Hc'; by autorewrite with relay).
    simpl. destruct t as [|a t]; [done|]. simpl.
    rewrite Hc'. by autorewrite with relay.
Qed.

Lemma upstream_close_not_recovered_witness :
  let c := run [ConnectOk 0] in
  session c = Some 0 ∧ ready c = true
  ∧ toClient (step c (UpClose 0 "idle"))
    = [Status "Session ready"; Status "Upstream closed: idle"]
  ∧ session (step c (UpClose 0 "idle")) = Some 0.
Proof.
  intros c. split; [reflexivity|]. split; [reflexivity|].
  destruct (upstream_close_not_recovered [ConnectOk 0] 0 "idle" "hi")
    as (H1 & H2 & _); [reflexivity|reflexivity|discriminate|].
  split; [exact H1|exact H2].
Defined.

End RelayMore.

(** * Further properties of the codec *)

Module CodecMore.
Import Wire GenAI Num Codec CodecSpec Base64 Base64Spec Base64Facts CodecFacts.

(** ** The quantiser *)

Lemma truncate_lower q a : (inject_Z a <= q)%Q → (a ≤ truncate q)%Z.
Proof.
  destruct q as [n d]. unfold Qle, truncate. simpl. intros Ha.
  apply Z.quot_le_lower_bound; lia.
Qed.

Lemma truncate_upper q b : (q <= inject_Z b)%Q → (truncate q ≤ b)%Z.
Proof.
  destruct q as [n d]. unfold Qle, truncate. simpl. intros Hb.
  apply Z.quot_le_upper_bound; lia.
Qed.

Lemma truncate_nonneg q :
  (0 <= q)%Q →
  (inject_Z (truncate q) <= q)%Q ∧ (q < inject_Z (truncate q) + 1)%Q.
Proof.
  destruct q as [n d]. unfold Qle, Qlt, truncate. simpl. intros Hn.
  pose proof (Z.quot_rem' n (Z.pos d)) as Hqr.
  pose proof (Z.rem_bound_pos n (Z.pos d) ltac:(lia) ltac:(lia)).
  split; nia.
Qed.

Lemma truncate_nonpos q :
  (q <= 0)%Q →
  (q <= inject_Z (truncate q))%Q ∧ (inject_Z (truncate q) - 1 < q)%Q.
Proof.
  destruct q as [n d]. unfold Qle, Qlt, truncate. simpl. intros Hn.
  pose proof (Z.quot_rem' n (Z.pos d)) as Hqr.
  pose proof (Z.rem_opp_l n (Z.pos d) ltac:(lia)) as Hopp.
  pose proof (Z.rem_bound_pos (- n) (Z.pos d) ltac:(lia) ltac:(lia)).
  split; nia.
Qed.

Lemma truncate_mono q1 q2 : (q1 <= q2)%Q → (truncate q1 ≤ truncate q2)%Z.
Proof.
  intros H. destruct (Qlt_le_dec q1 0) as [H1|H1].
  - destruct (Qlt_le_dec 0 q2) as [H2|H2].
    + assert (truncate q1 ≤ 0)%Z by (apply truncate_upper; by apply Qlt_le_weak).
      assert (0 ≤ truncate q2)%Z by (apply truncate_lower; by apply Qlt_le_weak).
      lia.
    + apply truncate_upper. eapply Qle_trans; [exact H|]. by apply truncate_nonpos.
  - apply truncate_lower. eapply Qle_trans; [|exact H]. by apply truncate_nonneg.
Qed.

(** The value that is truncated: the clamped and scaled sample. *)
Lemma quantize_truncate q :
  ∃ g, quantize (Fin q) = truncate g
       ∧ ((1 <= q)%Q → g = 32767%Q)
       ∧ (¬ (1 <= q)%Q → (q <= -1)%Q → g = (-32768)%Q)
       ∧ (¬ (1 <= q)%Q → ¬ (q <= -1)%Q → (0 <= q)%Q → g = (q * 32767)%Q)
       ∧ (¬ (1 <= q)%Q → ¬ (q <= -1)%Q → ¬ (0 <= q)%Q → g = (q * 32768)%Q).
Proof.
  unfold quantize.
  destruct (Qle_bool 1 q) eqn:H1.
  { apply Qle_bool_iff in H1. exists 32767%Q. split_and!; try done. }
  apply not_true_iff_false in H1. rewrite Qle_bool_iff in H1.
  destruct (Qle_bool q (-1)) eqn:H2.
  { apply Qle_bool_iff in H2. exists (-32768)%Q. split_and!; try done. }
  apply not_true_iff_false in H2. rewrite Qle_bool_iff in H2.
  destruct (Qle_bool 0 q) eqn:H3.
  { apply Qle_bool_iff in H3. exists (q * 32767)%Q. split_and!; try done. }
  apply not_true_iff_false in H3. rewrite Qle_bool_iff in H3.
  exists (q * 32768)%Q. split_and!; try done.
Qed.

(** X6.  The quantiser is monotone: a sample that is not smaller never
    gets a smaller 16-bit value. *)
Theorem sample16_monotone (q1 q2 : Q) :
  (q1 <= q2)%Q → (sample16 (Fin q1) ≤ sample16 (Fin q2))%Z.
Proof.
  intros H. rewrite !sample16_quantize.
  destruct (quantize_truncate q1) as (g1 & -> & A1 & A2 & A3 & A4).
  destruct (quantize_truncate q2) as (g2 & -> & B1 & B2 & B3 & B4).
  apply truncate_mono.
  destruct q1 as [n1 d1], q2 as [n2 d2].
  destruct (Qlt_le_dec (n1 # d1) 1) as [L1|L1];
    [apply Qlt_not_le in L1|rewrite (A1 L1)];
    (destruct (Qlt_le_dec (n2 # d2) 1) as [M1|M1];
     [apply Qlt_not_le in M1|rewrite (B1 M1)]);
    try (destruct (Qlt_le_dec (-1) (n1 # d1)) as [L2|L2];
         [apply Qlt_not_le in L2|rewrite (A2 L1 L2)]);
    try (destruct (Qlt_le_dec (-1) (n2 # d2)) as [M2|M2];
         [apply Qlt_not_le in M2|rewrite (B2 M1 M2)]);
    try (destruct (Qlt_le_dec (n1 # d1) 0) as [L3|L3];
         [apply Qlt_not_le in L3; rewrite (A4 L1 L2 L3)|rewrite (A3 L1 L2 L3)]);
    try (destruct (Qlt_le_dec (n2 # d2) 0) as [M3|M3];
         [apply Qlt_not_le in M3; rewrite (B4 M1 M2 M3)|rewrite (B3 M1 M2 M3)]);
    unfold Qle, Qlt in *; simpl in *; nia.
Qed.

Lemma sample16_monotone_witness :
  ((-1 # 3) <= (1 # 2))%Q
  ∧ (sample16 (Fin (-1 # 3)) ≤ sample16 (Fin (1 # 2)))%Z.
Proof.
  assert ((-1 # 3) <= (1 # 2))%Q as H by (by vm_compute).
  split; [exact H|]. exact (sample16_monotone _ _ H).
Defined.

(** X7.  For a sample in [-1, 1] the 16-bit value is the scaled sample
    rounded toward zero, less than one step away from it: scaled by 32767
    and not above it for a sample that is not negative, scaled by 32768
    and not below it for a negative sample. *)
Theorem sample16_error (q : Q) :
  (-1 <= q)%Q → (q <= 1)%Q →
  let v := inject_Z (sample16 (Fin q)) in
  ((0 <= q)%Q → (v <= q * 32767)%Q ∧ (q * 32767 < v + 1)%Q)
  ∧ ((q < 0)%Q → (q * 32768 <= v)%Q ∧ (v - 1 < q * 32768)%Q).
Proof.
  intros Hlo Hhi v. unfold v. rewrite sample16_quantize.
  destruct (quantize_truncate q) as (g & -> & A1 & A2 & A3 & A4).
  assert (0 <= q → g == q * 32767)%Q as Hpos.
  { intros H0. destruct (Qlt_le_dec q 1) as [L1|L1].
    - apply Qlt_not_le in L1. rewrite (A3 L1); [reflexivity| |done].
      intros L2. assert (0 <= -1)%Q by (eapply Qle_trans; [exact H0|exact L2]). done.
    - rewrite (A1 L1). assert (q == 1)%Q as -> by by apply Qle_antisym.
      reflexivity. }
  assert (q < 0 → g == q * 32768)%Q as Hneg.
  { intros H0. assert (¬ 1 <= q)%Q as L1.
    { intros L1. destruct q as [n d]. unfold Qle, Qlt in *. simpl in *. lia. }
    destruct (Qlt_le_dec (-1) q) as [L2|L2].
    - apply Qlt_not_le in L2. rewrite (A4 L1 L2); [reflexivity|].
      by apply Qlt_not_le.
    - rewrite (A2 L1 L2). assert (q == -1)%Q as -> by by apply Qle_antisym.
      reflexivity. }
  split.
  - intros H0. rewrite <- (Hpos H0). apply truncate_nonneg.
    rewrite (Hpos H0). apply Qmult_le_0_compat; done.
  - intros H0. rewrite <- (Hneg H0).
    assert (g <= 0)%Q as Hg.
    { rewrite (Hneg H0). destruct q as [n d]. unfold Qle, Qlt in *. simpl in *. lia. }
    destruct (truncate_nonpos g Hg). done.
Qed.

Lemma sample16_error_witness :
  let v := inject_Z (sample16 (Fin (1 # 3))) in
  (-1 <= 1 # 3)%Q ∧ (1 # 3 <= 1)%Q ∧ (0 <= 1 # 3)%Q
  ∧ (v <= (1 # 3) * 32767)%Q ∧ ((1 # 3) * 32767 < v + 1)%Q.
Proof.
  intros v.
  assert (-1 <= 1 # 3)%Q as H1 by (by vm_compute).
  assert (1 # 3 <= 1)%Q as H2 by (by vm_compute).
  assert (0 <= 1 # 3)%Q as H3 by (by vm_compute).
  destruct (sample16_error (1 # 3) H1 H2) as [Hp _]. destruct (Hp H3).
  split_and!; assumption.
Defined.

(** ** The base64 framing *)

Lemma digit_sextet_node i : is_sextet i → sextet_node (digit i) = Some i.
Proof.
  intros Hi.
  pose (f := λ i, match sextet_node (digit i) with
                  | Some j => j =? i
                  | None => false
                  end%Z).
  assert (forallb f (seqZ 0 64) = true) as Hall by (vm_compute; reflexivity).
  apply Is_true_true_2, forallb_True in Hall. rewrite Forall_forall in Hall.
  assert (i ∈ seqZ 0 64) as Hin by (apply elem_of_seqZ; unfold is_sextet in Hi; lia).
  specialize (Hall i Hin). apply Is_true_true_1 in Hall. unfold f in Hall.
  destruct (sextet_node (digit i)) as [j|]; [|done].
  apply Z.eqb_eq in Hall. by subst j.
Qed.

Lemma until_pad_app l pad :
  Forall (λ c, is_pad c = false) l →
  pad = [] ∨ pad = ["="%char] ∨ pad = ["="; "="]%char →
  until_pad (l ++ pad) = l.
Proof.
  intros Hl Hpad. induction Hl as [|c l Hc _ IH]; simpl.
  - by destruct Hpad as [->|[->| ->]].
  - by rewrite Hc, IH.
Qed.

(** What [btoa] writes, Node's decoder reads back. *)
Lemma Buffer_from_btoa bs :
  Forall is_byte bs → Buffer_from_base64 (btoa (binary_string bs)) = bs.
Proof.
  intros Hbs. unfold btoa, Buffer_from_base64.
  rewrite char_codes_binary_string, list_ascii_of_string_of_list_ascii by done.
  rewrite encode_sextets.
  pose proof (sextets_range bs Hbs) as Hss.
  rewrite until_pad_app; [| |apply padding_cases].
  2:{ apply Forall_fmap. eapply Forall_impl; [exact Hss|].
      intros i Hi. apply (digit_sextet i Hi). }
  assert (omap sextet_node (digit <$> sextets bs) = sextets bs) as ->.
  { induction Hss as [|i ss Hi _ IH]; [done|].
    rewrite fmap_cons.
    change (omap sextet_node (digit i :: (digit <$> ss)))
      with (match sextet_node (digit i) with
            | Some y => y :: omap sextet_node (digit <$> ss)
            | None => omap sextet_node (digit <$> ss)
            end).
    by rewrite digit_sextet_node, IH. }
  by apply sextets_to_bytes_sextets.
Qed.

Lemma string_of_list_length l : String.length (string_of_list_ascii l) = length l.
Proof. induction l as [|c l IH]; simpl; [done|by rewrite IH]. Qed.

Lemma encode_length bs : length (encode bs) = 4 * ((length bs + 2) / 3).
Proof.
  induction bs as [|a|a b|a b c l IH] using list_ind3; try done.
  change (length (encode (a :: b :: c :: l))) with (4 + length (encode l)).
  rewrite IH. change (length (a :: b :: c :: l)) with (3 + length l).
  replace (3 + length l + 2) with (1 * 3 + (length l + 2)) by lia.
  rewrite Nat.div_add_l by done. lia.
Qed.

Lemma float32ToPCM16Base64_length float32 :
  String.length (float32ToPCM16Base64 float32)
  = 4 * ((2 * length float32 + 2) / 3).
Proof.
  unfold float32ToPCM16Base64, btoa.
  rewrite string_of_list_length, encode_length.
  rewrite char_codes_binary_string by apply pcm16_bytes_are_bytes.
  by rewrite pcm16_bytes_length.
Qed.

Lemma float32ToPCM16Base64_nonempty x xs :
  1 ≤ String.length (float32ToPCM16Base64 (x :: xs)).
Proof.
  rewrite float32ToPCM16Base64_length.
  assert (0 < (2 * length (x :: xs) + 2) / 3)
    by (apply Nat.div_str_pos; simpl; lia).
  lia.
Qed.

Lemma Buffer_from_float32 float32 :
  Buffer_from_base64 (float32ToPCM16Base64 float32) = pcm16_bytes float32.
Proof.
  unfold float32ToPCM16Base64. apply Buffer_from_btoa, pcm16_bytes_are_bytes.
Qed.

(** X8.  The string the encoder returns for [n] samples has
    [4 * ceil (2 n / 3)] characters; it is empty only for an empty
    buffer.  Both decoders read it back to the same [2 n] bytes: the
    browser's [atob] and Node's [Buffer.from]. *)
Theorem encoded_frame_size (float32 : list number) :
  String.length (float32ToPCM16Base64 float32)
  = 4 * ((2 * length float32 + 2) / 3)
  ∧ (float32ToPCM16Base64 float32 = EmptyString ↔ float32 = [])
  ∧ base64ToArrayBuffer (float32ToPCM16Base64 float32)
    = Some (Buffer_from_base64 (float32ToPCM16Base64 float32))
  ∧ length (Buffer_from_base64 (float32ToPCM16Base64 float32))
    = 2 * length float32.
Proof.
  assert (String.length (float32ToPCM16Base64 float32)
          = 4 * ((2 * length float32 + 2) / 3)) as Hlen.
  { unfold float32ToPCM16Base64, btoa.
    rewrite string_of_list_length, encode_length.
    rewrite char_codes_binary_string by apply pcm16_bytes_are_bytes.
    by rewrite pcm16_bytes_length. }
  assert (Buffer_from_base64 (float32ToPCM16Base64 float32) = pcm16_bytes float32)
    as Hnode.
  { unfold float32ToPCM16Base64. apply Buffer_from_btoa, pcm16_bytes_are_bytes. }
  split_and!.
  - exact Hlen.
  - split.
    + intros He. rewrite He in Hlen.
      change (String.length EmptyString) with 0 in Hlen.
      destruct float32 as [|x xs]; [done|]. exfalso.
      assert (0 < (2 * length (x :: xs) + 2) / 3)
        by (apply Nat.div_str_pos; simpl; lia).
      lia.
    + by intros ->.
  - by rewrite base64_of_pcm16, Hnode.
  - by rewrite Hnode, pcm16_bytes_length.
Qed.

End CodecMore.

(** * Further properties of the playback scheduler *)

Module PlayerMore.
Import GenAI Player DirectClient PlayerSpec PlayerMoreSpec PlayerFacts.

Local Open Scope Q_scope.







(** ** The bookkeeping of the direct client *)

Lemma Sound_player d d' :
  player d' = player d → waiting d' = waiting d → Sound d → Sound d'.
Proof. intros Hp Hw [H1 H2 H3 H4 H5]. split; rewrite ?Hp, ?Hw; done. Qed.

Lemma Sound_interrupt d :
  Sound d → Sound (with_player interrupt d).
Proof.
  intros [H1 H2 H3 H4 H5].
  split; unfold with_player; cbn [player waiting]; rewrite ?interrupt_spec;
    cbn [sources stopped made started]; try done.
  intros n Hn. apply elem_of_union in Hn as [?|?]; auto.
Qed.

Lemma Sound_finish m d : Sound d → Sound (finish m d).
Proof. unfold finish. destruct (is_interrupted m); [apply Sound_interrupt|done]. Qed.

Lemma Sound_schedule duration d :
  Sound d → Sound (with_player (schedule duration) d).
Proof.
  intros [H1 H2 H3 H4 H5].
  split; unfold with_player, schedule;
    cbn [player waiting sources stopped made started]; try done.
  - rewrite fmap_app, H1, seq_S. done.
  - intros n Hn. apply elem_of_union in Hn as [Hn|Hn].
    + apply H2 in Hn. lia.
    + apply elem_of_singleton in Hn. lia.
  - intros n ?%H3. lia.
  - apply disjoint_union_l. split; [done|].
    apply disjoint_singleton_l. intros ?%H3. lia.
Qed.

Lemma Sound_step d ev : Sound d → Sound (step d ev).
Proof.
  intros HS. destruct ev as [now m|decoded|src]; simpl.
  - unfold onmessage_begin.
    destruct (includes "revolt" (toLowerCase (textResponse m))) eqn:Hk; simpl.
    + destruct (first_part m ≫= inlineData) as [audio|] eqn:Ha.
      * destruct HS as [H1 H2 H3 H4 H5]. split; simpl; try done.
        apply Forall_app. split; [done|]. constructor; [|done].
        split; [done|]. by rewrite Ha.
      * by apply Sound_finish.
    + by apply (Sound_player d).
  - destruct (waiting d) as [|m rest] eqn:Hw; [done|].
    assert (Sound (mkClient (player d) (status d) (error d) rest)) as HS'.
    { destruct HS as [H1 H2 H3 H4 H5]. split; simpl; try done.
      rewrite Hw in H5. by apply Forall_cons in H5 as [_ ?]. }
    unfold onmessage_resume. destruct decoded as [duration|]; [|done].
    by apply Sound_finish, Sound_schedule.
  - destruct HS as [H1 H2 H3 H4 H5]. split; simpl; try done.
    + intros n [?%H2 _]%elem_of_difference. done.
    + set_solver.
Qed.

(** X10.  Whatever messages, decoding results and [ended] events
    arrive, and in whatever order, the bookkeeping of the direct client
    stays consistent: the nodes are numbered in the order of their start
    calls, each started exactly once; every node of the active set has
    been started and has not been stopped; every handler that waits for
    its decoded buffer belongs to a message that passed the keyword
    filter and carries audio. *)
Theorem direct_client_bookkeeping (now0 : Q) (evs : list Event) :
  Sound (foldl step (init now0) evs).
Proof.
  induction evs as [|ev evs IH] using rev_ind.
  - split; simpl; try done; set_solver.
  - rewrite foldl_app. by apply Sound_step.
Qed.

End PlayerMore.

(** * The WebSocket client as a whole *)

Module WsAppFacts.
Import Wire GenAI Num Codec Player WsApp WsAppSpec.

Local Open Scope Q_scope.

Lemma app_run_snoc now evs ev : run now (evs ++ [ev]) = step (run now evs) ev.
Proof. unfold run. by rewrite foldl_app. Qed.

(** ** The recorder *)

Lemma Tidy_ext a a' :
  Tidy a →
  isRecording a' = isRecording a → mediaStream a' = mediaStream a →
  sourceNode a' = sourceNode a → scriptProcessorNode a' = scriptProcessorNode a →
  granted a' = granted a → tracks_stopped a' = tracks_stopped a →
  plugged a' = plugged a → wired a' = wired a →
  overlapped a' = overlapped a →
  (resuming a' + requesting a' ≤ resuming a + requesting a)%nat →
  Tidy a'.
Proof.
  intros [H1 H2 H3 H4 H5 H6 H7 H8 H9] E1 E2 E3 E4 E5 E6 E7 E8 E9 Hle.
  split; rewrite ?E1, ?E2, ?E3, ?E4, ?E5, ?E6, ?E7, ?E8, ?E9; try done.
  intros Ho. destruct (H8 Ho) as [Hsum Hnone]. split; [lia|].
  intros Hpos. apply Hnone. lia.
Qed.

Lemma Tidy_idle a :
  Tidy a → isRecording a = false → mediaStream a = None.
Proof.
  intros HT Hr. destruct (mediaStream a) as [n|] eqn:Hm; [|done].
  assert (isRecording a = true) by (apply HT; rewrite Hm; by eexists).
  congruence.
Qed.

Lemma Tidy_stopRecording a : Tidy a → Tidy (stopRecording a).
Proof.
  intros HT. unfold stopRecording.
  destruct (negb (isRecording a) && negb (bool_decide (is_Some (mediaStream a))));
    [done|].
  pose proof HT as [H1 H2 H3 H4 H5 H6 H7 H8 H9].
  split; cbn [isRecording mediaStream sourceNode scriptProcessorNode granted
              tracks_stopped plugged wired overlapped resuming requesting];
    try done.
  - rewrite ?H2, ?H3. intros n Hn. apply elem_of_union in Hn as [Hn|Hn].
    + destruct (H5 n Hn). split; [done|]. set_solver.
    + destruct (mediaStream a) as [m|] eqn:Hm; cbn [held] in *; [|set_solver].
      apply elem_of_singleton in Hn as ->.
      destruct (H4 m eq_refl) as (? & ? & ?). split; [done|]. set_solver.
  - intros n Hn. apply H6. set_solver.
  - by rewrite H2, H3, H7.
  - intros Ho. destruct (H8 Ho). split; [done|]. done.
  - intros Ho n Hn. right. destruct (H9 Ho n Hn) as [Hm|Hs].
    + rewrite Hm. set_solver.
    + set_solver.
Qed.

Lemma Tidy_step a ev : Tidy a → Tidy (step a ev).
Proof.
  intros HT.
  destruct ev as [| | | |m|i decoded now|src| | | | | |message|pid pcm];
    cbn [step].
  - by apply (Tidy_ext a).
  - by apply (Tidy_ext a).
  - by apply (Tidy_ext a).
  - by apply (Tidy_ext a).
  - destruct m as [message|t|base64 mime]; cbn [on_message];
      [by apply (Tidy_ext a)..|].
    destruct (WsClient.audio_begin base64); [|done]. by apply (Tidy_ext a).
  - destruct (decoding a !! i); [|done]. by apply (Tidy_ext a).
  - by apply (Tidy_ext a).
  - unfold reset, ws_send. destruct (ws_open a); by apply (Tidy_ext a).
  - unfold startRecording. destruct (isRecording a) eqn:Hr; [done|].
    pose proof (Tidy_idle a HT Hr) as Hm.
    pose proof HT as [H1 H2 H3 H4 H5 H6 H7 H8 H9].
    split; cbn [isRecording mediaStream sourceNode scriptProcessorNode granted
                tracks_stopped plugged wired overlapped resuming requesting
                set_overlapped set_resuming]; try done.
    + intros Ho. apply orb_false_iff in Ho as [Ho Hz].
      apply negb_false_iff, Nat.eqb_eq in Hz. split; [lia|done].
    + intros Ho. apply orb_false_iff in Ho as [Ho _]. by apply H9.
  - by apply Tidy_stopRecording.
  - destruct (resuming a) as [|k] eqn:Hk; [done|].
    apply (Tidy_ext a); try done.
    cbn [resuming requesting startRecording_resumed set_requesting set_status
         set_resuming]. lia.
  - destruct (requesting a) as [|k] eqn:Hk; [done|].
    pose proof HT as [H1 H2 H3 H4 H5 H6 H7 H8 H9].
    split; cbn [isRecording mediaStream sourceNode scriptProcessorNode granted
                tracks_stopped plugged wired overlapped resuming requesting
                startRecording_granted set_requesting]; try done.
    + intros n [= <-]. split_and!; [lia| |set_solver].
      intros Hn. apply H5 in Hn. lia.
    + intros n Hn. destruct (H5 n Hn) as [? ?]. split; [lia|].
      intros [?| ->%elem_of_singleton]%elem_of_union; [done|lia].
    + intros n [?%H6| ->%elem_of_singleton]%elem_of_union; lia.
    + by rewrite H7.
    + intros Ho. destruct (H8 Ho) as [Hsum _]. split; [lia|]. lia.
    + intros Ho n Hn. destruct (H8 Ho) as [_ Hnone].
      destruct (decide (n = granted a)) as [->|Hne]; [by left|].
      right. destruct (H9 Ho n) as [Hm|?]; [lia| |done].
      rewrite Hnone in Hm by lia. done.
  - destruct (requesting a) as [|k] eqn:Hk; [done|].
    apply Tidy_stopRecording. apply (Tidy_ext a); try done.
    cbn [resuming requesting set_error set_requesting]. lia.
  - destruct (bool_decide _); [|done]. unfold onaudioprocess, ws_send.
    destruct (negb (isRecording a)); [done|].
    destruct (ws_open a); [|done]. by apply (Tidy_ext a).
Qed.

Lemma Tidy_init now : Tidy (init now).
Proof.
  split; cbn; try done.
  - intros _. split; [lia|done].
  - intros _ n Hn. lia.
Qed.

(** X11.  In every run of the WebSocket client the recorder is
    consistent: it records exactly while it holds a stream; the source
    node and the script processor are set and cleared together with the
    stream; the stream it holds is live and its processor connected; a
    stream whose tracks were stopped has its nodes disconnected.  As long
    as no start is made while another one waits, at most one start is
    waiting, and every stream that was granted is either the one held
    or has had its tracks stopped. *)
Theorem recorder_releases_microphone (now : Q) (evs : list Event) :
  Tidy (run now evs).
Proof.
  induction evs as [|ev evs IH] using rev_ind.
  - apply Tidy_init.
  - rewrite app_run_snoc. by apply Tidy_step.
Qed.

Lemma leaked_step n a ev : leaked n a → leaked n (step a ev).
Proof.
  intros (Hg & Hs & Hw & Hm & Hsrc & Hp).
  assert (∀ a', granted a' = granted a → tracks_stopped a' = tracks_stopped a →
                wired a' = wired a → mediaStream a' = mediaStream a →
                sourceNode a' = sourceNode a →
                scriptProcessorNode a' = scriptProcessorNode a → leaked n a')
    as Hsame.
  { intros a' E1 E2 E3 E4 E5 E6. unfold leaked.
    by rewrite E1, E2, E3, E4, E5, E6. }
  assert (∀ a', leaked n a' → leaked n (stopRecording a')) as Hstop.
  { intros a' (Hg' & Hs' & Hw' & Hm' & Hsrc' & Hp'). unfold stopRecording.
    destruct (_ && _); [done|]. unfold leaked.
    cbn [granted tracks_stopped wired mediaStream sourceNode scriptProcessorNode].
    split_and!; try done.
    - destruct (mediaStream a') as [m|]; cbn [held]; [|set_solver].
      intros [?| ->%elem_of_singleton]%elem_of_union; [done|]. by apply Hm'.
    - destruct (scriptProcessorNode a') as [m|]; cbn [held]; [|set_solver].
      apply elem_of_difference. split; [done|].
      intros ->%elem_of_singleton. by apply Hp'. }
  destruct ev as [| | | |m|i decoded now|src| | | | | |message|pid pcm];
    cbn [step].
  - by apply Hsame.
  - by apply Hsame.
  - by apply Hsame.
  - by apply Hsame.
  - destruct m as [message|t|base64 mime]; cbn [on_message];
      [by apply Hsame..|].
    destruct (WsClient.audio_begin base64); by apply Hsame.
  - destruct (decoding a !! i); by apply Hsame.
  - by apply Hsame.
  - unfold reset, ws_send. destruct (ws_open a); by apply Hsame.
  - unfold startRecording. destruct (isRecording a); by apply Hsame.
  - by apply Hstop.
  - destruct (resuming a); by apply Hsame.
  - destruct (requesting a) as [|k]; [by apply Hsame|].
    unfold leaked, startRecording_granted.
    cbn [granted tracks_stopped wired mediaStream sourceNode scriptProcessorNode
         set_requesting].
    split_and!; [lia|done|set_solver|..]; intros [= E]; lia.
  - destruct (requesting a) as [|k]; [by apply Hsame|].
    apply Hstop. by apply Hsame.
  - destruct (bool_decide _); [|by apply Hsame]. unfold onaudioprocess, ws_send.
    destruct (negb (isRecording a)); [by apply Hsame|].
    destruct (ws_open a); by apply Hsame.
Qed.

(** X12.  The guard of [startRecording] tests [isRecording], which is
    set only when the microphone is granted: a second start made while
    the first one waits passes it.  Both obtain a stream; the second
    overwrites the fields, and from then on nothing refers to the first
    stream: whatever happens afterwards, its tracks are never stopped
    and its script processor stays connected. *)
Theorem overlapping_starts_leak (a : App) (later : list Event) :
  Tidy a → isRecording a = false →
  let a' := foldl step a [ClickStart; ClickStart; Resumed; Resumed;
                          Granted; Granted] in
  isRecording a' = true ∧ mediaStream a' = Some (S (granted a))
  ∧ leaked (granted a) (foldl step a' later).
Proof.
  intros HT Hr a'.
  assert (isRecording a' = true ∧ mediaStream a' = Some (S (granted a))
          ∧ leaked (granted a) a') as (H1 & H2 & H3).
  { subst a'. destruct HT as [_ _ _ _ H5 _ _ _ _].
    destruct a as [rec st er tx ms sn sp pl wo se rs rq ov de gr ts pg wi].
    cbn in Hr, H5. subst rec. unfold leaked. cbn.
    split_and!; try done; try lia.
    - intros Hn. apply H5 in Hn. lia.
    - set_solver.
    - intros [=]. lia.
    - intros [=]. lia.
    - intros [=]. lia. }
  split_and!; [done..|].
  clear H1 H2. induction later as [|ev later IH] using rev_ind; [done|].
  rewrite foldl_app. by apply leaked_step.
Qed.

Lemma overlapping_starts_leak_witness :
  let a' := foldl step (init 0) [ClickStart; ClickStart; Resumed; Resumed;
                                 Granted; Granted] in
  leaked 0 (foldl step a' [ClickStop; ClickStart; Resumed; Granted; ClickStop]).
Proof.
  intros a'.
  exact (proj2 (proj2 (overlapping_starts_leak (init 0)
           [ClickStop; ClickStart; Resumed; Granted; ClickStop]
           (Tidy_init 0) eq_refl))).
Defined.

(** X13.  When the microphone is refused to a client that is not
    recording, the [stopRecording] of the [catch] block finds nothing to
    stop and returns at its guard: the error is recorded, and the status
    stays at the request, neither recording nor stopped. *)
Theorem refused_microphone (a : App) (message : option string) :
  isRecording a = false → mediaStream a = None →
  let a' := foldl step a [ClickStart; Resumed; Denied message] in
  status a' = "Requesting microphone access..."%string
  ∧ error a' = default "Mic error"%string message
  ∧ isRecording a' = false ∧ mediaStream a' = None
  ∧ sent a' = sent a ∧ granted a' = granted a
  ∧ tracks_stopped a' = tracks_stopped a ∧ wired a' = wired a.
Proof.
  intros Hr Hm a'. subst a'.
  destruct a as [rec st er tx ms sn sp pl wo se rs rq ov de gr ts pg wi].
  cbn in Hr, Hm. subst rec ms. cbn. done.
Qed.

Lemma refused_microphone_witness :
  status (foldl step (init 0) [ClickStart; Resumed; Denied None])
  = "Requesting microphone access..."%string
  ∧ error (foldl step (init 0) [ClickStart; Resumed; Denied None])
    = "Mic error"%string.
Proof.
  destruct (refused_microphone (init 0) None eq_refl eq_refl)
    as (H1 & H2 & _).
  split; [exact H1|exact H2].
Defined.

(** X14.  [stopRecording] leaves the recorder idle, without a stream,
    and the tracks of the stream it held are stopped; a second call
    changes nothing, not even the status. *)
Theorem stopRecording_idempotent (a : App) :
  stopRecording (stopRecording a) = stopRecording a
  ∧ isRecording (stopRecording a) = false
  ∧ mediaStream (stopRecording a) = None
  ∧ held (mediaStream a) ⊆ tracks_stopped (stopRecording a).
Proof.
  unfold stopRecording.
  destruct (isRecording a) eqn:Hr, (mediaStream a) as [n|] eqn:Hm;
    cbn [negb andb bool_decide]; rewrite ?Hr, ?Hm;
    repeat (rewrite bool_decide_eq_true_2 by (by eexists));
    repeat (rewrite bool_decide_eq_false_2 by (by intros [? ?]));
    cbn; rewrite ?Hr, ?Hm;
    repeat (rewrite bool_decide_eq_false_2 by (by intros [? ?]));
    cbn; split_and!; try done; set_solver.
Qed.

(** ** The frames of the browser at the relay *)

Lemma decode_audio_json pcm :
  decode_frame (Some (audio_json pcm))
  = match pcm with
    | [] => None
    | _ => Some (CAudio (float32ToPCM16Base64 pcm))
    end.
Proof.
  destruct pcm as [|x xs]; [reflexivity|].
  cbn [decode_frame audio_json FromClient_parse].
  change (prop "type" _) with (Some (JStr "audio")).
  change (String.eqb "audio" "text") with false.
  change (String.eqb "audio" "audio") with true.
  cbn iota.
  change (prop "base64" _) with (Some (JStr (float32ToPCM16Base64 (x :: xs)))).
  unfold z_string_min1.
  pose proof (CodecMore.float32ToPCM16Base64_nonempty x xs) as Hlen.
  apply Nat.leb_le in Hlen. by rewrite Hlen.
Qed.

(** X15.  A buffer of the microphone that the capture callback gets
    while the client records and its socket is open is sent as one audio
    frame, and a relay that holds a session hands the upstream session
    exactly the little-endian 16-bit samples of the buffer, as
    [audio/pcm]; for a buffer without samples the frame carries an empty
    string, which the relay answers with 'Bad client message'. *)
Theorem captured_audio_reaches_upstream
    (a : App) (pid : nat) (pcm : list number) (c : Relay.Conn) (sid : nat) :
  isRecording a = true → ws_open a = true → pid ∈ wired a →
  Relay.session c = Some sid → Relay.listening c = true →
  sent (step a (AudioProcess pid pcm)) = sent a ++ [audio_json pcm]
  ∧ Relay.step c (Relay.WsMessage (Some (audio_json pcm)))
    = match pcm with
      | [] => Relay.send (Status "Bad client message") c
      | _ => Relay.set_toUpstream
               (Relay.toUpstream c
                ++ [(sid, InMedia (pcm16_bytes pcm) "audio/pcm")]) c
      end.
Proof.
  intros Hr Ho Hw Hs Hl. split.
  - cbn [step]. rewrite bool_decide_eq_true_2 by set_solver.
    unfold onaudioprocess, ws_send. by rewrite Hr, Ho.
  - cbn [Relay.step]. rewrite Hl. unfold Relay.on_ws_message.
    rewrite Hs, decode_audio_json. destruct pcm as [|x xs]; [done|].
    by rewrite CodecMore.Buffer_from_float32.
Qed.

Lemma captured_audio_reaches_upstream_witness :
  let a := foldl step (init 0) [WsOpen; ClickStart; Resumed; Granted] in
  let c := Relay.run [Relay.ConnectOk 0] in
  Relay.toUpstream
    (Relay.step c (Relay.WsMessage (Some (audio_json [Fin 1; Fin (-1)]))))
  = [(0%nat, InMedia [255; 127; 0; 128]%Z "audio/pcm")].
Proof.
  intros a c.
  destruct (captured_audio_reaches_upstream a 0 [Fin 1; Fin (-1)] c 0)
    as [_ ->]; [reflexivity|reflexivity|vm_compute; reflexivity|reflexivity|reflexivity|].
  reflexivity.
Defined.

(** X16.  [sendText], while the socket is open, sends one text frame;
    a relay that holds a session passes the text on to it unchanged,
    and answers an empty text with 'Bad client message'. *)
Theorem typed_text_reaches_upstream
    (a : App) (t : string) (c : Relay.Conn) (sid : nat) :
  ws_open a = true →
  Relay.session c = Some sid → Relay.listening c = true →
  sent (sendText t a) = sent a ++ [text_json t]
  ∧ Relay.step c (Relay.WsMessage (Some (text_json t)))
    = match t with
      | EmptyString => Relay.send (Status "Bad client message") c
      | _ => Relay.set_toUpstream (Relay.toUpstream c ++ [(sid, InText t)]) c
      end.
Proof.
  intros Ho Hs Hl. split.
  - unfold sendText, ws_send. by rewrite Ho.
  - cbn [Relay.step]. rewrite Hl. unfold Relay.on_ws_message. rewrite Hs.
    by destruct t.
Qed.

Lemma typed_text_reaches_upstream_witness :
  let a := step (init 0) WsOpen in
  let c := Relay.run [Relay.ConnectOk 0] in
  sent (sendText "hi" a) = [text_json "hi"]
  ∧ Relay.toUpstream (Relay.step c (Relay.WsMessage (Some (text_json "hi"))))
    = [(0%nat, InText "hi")].
Proof.
  intros a c.
  destruct (typed_text_reaches_upstream a "hi" c 0) as [-> ->];
    [reflexivity..|].
  split; reflexivity.
Defined.

(** X17.  The reset button clears the text and shows 'Session reset'
    whether or not a reset was asked for: with the socket not open
    nothing is sent, and a relay that holds no session (its connect call
    is pending or has failed) drops the frame it gets. *)
Theorem reset_shown_even_if_dropped (a : App) (c : Relay.Conn) :
  Relay.session c = None →
  status (reset a) = "Session reset"%string ∧ text (reset a) = EmptyString
  ∧ sent (reset a) = (if ws_open a then sent a ++ [reset_json] else sent a)
  ∧ player (reset a) = player a ∧ decoding (reset a) = decoding a
  ∧ Relay.step c (Relay.WsMessage (Some reset_json)) = c.
Proof.
  intros Hs. unfold reset, ws_send. split_and!; try by destruct (ws_open a).
  cbn [Relay.step]. unfold Relay.on_ws_message. rewrite Hs.
  by destruct (Relay.listening c).
Qed.

Lemma reset_shown_even_if_dropped_witness :
  let a := step (init 0) WsOpen in
  status (reset a) = "Session reset"%string
  ∧ Relay.step Relay.accept (Relay.WsMessage (Some reset_json)) = Relay.accept.
Proof.
  intros a.
  destruct (reset_shown_even_if_dropped a Relay.accept eq_refl)
    as (H1 & _ & _ & _ & _ & H2).
  split; [exact H1|exact H2].
Defined.

Lemma sent_step a ev :
  sent (step a ev) = sent a
  ∨ (ws_open a = true ∧ ev = ClickReset ∧ sent (step a ev) = sent a ++ [reset_json])
  ∨ (ws_open a = true ∧ isRecording a = true
     ∧ ∃ pid pcm, ev = AudioProcess pid pcm ∧ pid ∈ wired a ∪ plugged a
                  ∧ sent (step a ev) = sent a ++ [audio_json pcm]).
Proof.
  destruct ev as [| | | |m|i decoded now|src| | | | | |message|pid pcm];
    cbn [step]; try (by left).
  - left. destruct m as [message|t|base64 mime]; cbn [on_message]; try done.
    by destruct (WsClient.audio_begin base64).
  - left. by destruct (decoding a !! i).
  - unfold reset, ws_send. destruct (ws_open a) eqn:Ho; [|by left].
    right; left. done.
  - left. unfold startRecording. by destruct (isRecording a).
  - left. unfold stopRecording. by destruct (_ && _).
  - left. by destruct (resuming a).
  - left. by destruct (requesting a).
  - left. destruct (requesting a); [done|].
    unfold startRecording_denied, stopRecording. by destruct (_ && _).
  - destruct (bool_decide _) eqn:Hin; [|by left].
    apply bool_decide_eq_true in Hin.
    unfold onaudioprocess, ws_send.
    destruct (isRecording a) eqn:Hr; [|by left].
    destruct (ws_open a) eqn:Ho; [|by left].
    right; right. split_and!; try done. by exists pid, pcm.
Qed.

(** X18.  In every run, whatever the client has sent to the relay is a
    sequence of reset frames and of audio frames that carry an encoded
    buffer: no text frame is ever sent ([sendText] has no caller in the
    component), and every frame was sent while the socket was open. *)
Theorem client_sends_reset_or_audio (now : Q) (evs : list Event) :
  Forall (λ v, v = reset_json ∨ ∃ pcm, v = audio_json pcm) (sent (run now evs))
  ∧ (Forall (λ ev, ev ≠ WsOpen) evs → sent (run now evs) = []).
Proof.
  split.
  - induction evs as [|ev evs IH] using rev_ind; [constructor|].
    rewrite app_run_snoc.
    destruct (sent_step (run now evs) ev)
      as [->|[(_ & _ & ->)|(_ & _ & pid & pcm & _ & _ & ->)]]; [done|..];
      apply Forall_app; (split; [done|]); apply Forall_singleton.
    + by left.
    + right. by exists pcm.
  - induction evs as [|ev evs IH] using rev_ind; [done|].
    intros [Hevs Hev]%Forall_app. apply Forall_cons in Hev as [Hev _].
    specialize (IH Hevs). rewrite app_run_snoc.
    assert (ws_open (run now evs) = false) as Hclosed.
    { clear IH Hev. induction evs as [|e evs IH'] using rev_ind; [done|].
      apply Forall_app in Hevs as [Hevs He]. apply Forall_cons in He as [He _].
      specialize (IH' Hevs). rewrite app_run_snoc.
      destruct e as [| | | |m|i decoded now'|src| | | | | |message|pid pcm];
        cbn [step]; try done.
      - destruct m as [message|t|base64 mime]; cbn [on_message]; try done.
        by destruct (WsClient.audio_begin base64).
      - by destruct (decoding (run now evs) !! i).
      - unfold reset, ws_send. by rewrite IH'.
      - unfold startRecording. by destruct (isRecording _).
      - unfold stopRecording. by destruct (_ && _).
      - by destruct (resuming _).
      - by destruct (requesting _).
      - destruct (requesting _); [done|].
        unfold startRecording_denied, stopRecording. by destruct (_ && _).
      - destruct (bool_decide _); [|done]. unfold onaudioprocess, ws_send.
        destruct (negb _); [done|]. by rewrite IH'. }
    destruct (sent_step (run now evs) ev)
      as [->|[(Ho & _)|(Ho & _)]]; [done|congruence..].
Qed.

(** ** Playback in the WebSocket client *)

Lemma apart_snoc log n t d :
  apart log →
  (∀ n0 t0 d0, last log = Some (n0, t0, d0) → t0 + d0 <= t) →
  apart (log ++ [(n, t, d)]).
Proof.
  intros Ha Hl i n1 t1 d1 n2 t2 d2 H1 H2.
  pose proof (lookup_lt_Some _ _ _ H2) as Hlt.
  rewrite length_app in Hlt. cbn [length] in Hlt.
  destruct (decide (S i < length log)%nat) as [Hin|Hout].
  - rewrite lookup_app_l in H1, H2 by lia. eauto.
  - assert (S i = length log) as Hi by lia.
    rewrite lookup_app_l in H1 by lia.
    rewrite lookup_app_r in H2 by lia.
    replace (S i - length log)%nat with 0%nat in H2 by lia.
    injection H2 as <- <- <-.
    apply (Hl n1 t1 d1). rewrite last_lookup.
    by replace (pred (length log)) with i by lia.
Qed.

Lemma apart_step a ev :
  let ok a := apart (started (player a))
              ∧ ∀ n t d, last (started (player a)) = Some (n, t, d) →
                         t + d <= nextStartTime (player a) in
  ok a → ok (step a ev).
Proof.
  intros ok [Ha Hl].
  destruct ev as [| | | |m|i decoded now|src| | | | | |message|pid pcm];
    cbn [step]; try done.
  - destruct m as [message|t|base64 mime]; cbn [on_message]; try done.
    by destruct (WsClient.audio_begin base64).
  - destruct (decoding a !! i); [|done].
    unfold on_decoded, ok. cbn [player set_player set_decoding].
    destruct decoded as [duration|]; [|done].
    cbn [WsClient.audio_resume enqueue schedule anchor started nextStartTime].
    split.
    + apply apart_snoc; [done|]. intros n0 t0 d0 Hlast.
      eapply Qle_trans; [by eapply Hl|]. apply PlayerFacts.Math_max_lower.
    + intros n t d. rewrite last_snoc. intros [= <- <- <-]. apply Qle_refl.
  - unfold reset, ws_send. by destruct (ws_open a).
  - unfold startRecording. by destruct (isRecording a).
  - unfold stopRecording. by destruct (_ && _).
  - by destruct (resuming a).
  - by destruct (requesting a).
  - destruct (requesting a); [done|].
    unfold startRecording_denied, stopRecording. by destruct (_ && _).
  - destruct (bool_decide _); [|done]. unfold onaudioprocess, ws_send.
    destruct (negb _); [done|]. by destruct (ws_open a).
Qed.

(** X19.  In the WebSocket client the schedule is anchored and
    advanced in one piece after the buffer is decoded, and nothing ever
    lowers [nextStartTime]: in every run, whatever the order in which
    frames arrive and decodings settle, no buffer is started before the
    end of the buffer started before it. *)
Theorem ws_client_segments_apart (now : Q) (evs : list Event) :
  apart (started (player (run now evs))).
Proof.
  cut (apart (started (player (run now evs)))
       ∧ ∀ n t d, last (started (player (run now evs))) = Some (n, t, d) →
                  t + d <= nextStartTime (player (run now evs))).
  { by intros [? _]. }
  induction evs as [|ev evs IH] using rev_ind.
  - split; [|done]. by intros i ? ? ? ? ? ? ?.
  - rewrite app_run_snoc. by apply apart_step.
Qed.

End WsAppFacts.

(** * The direct client as a whole *)

Module DirectAppFacts.
Import GenAI Num Player DirectClient DirectApp DirectAppSpec.

Lemma direct_run_snoc now evs ev : run now (evs ++ [ev]) = step (run now evs) ev.
Proof. unfold run. by rewrite foldl_app. Qed.

(** ** The status line *)

Lemma finish_error m d : error (finish m d) = error d.
Proof. unfold finish. by destruct (is_interrupted m). Qed.

Lemma core_step_error d ev : error (DirectClient.step d ev) = error d.
Proof.
  destruct ev as [now m|decoded|src]; cbn [DirectClient.step].
  - unfold onmessage_begin. destruct (negb _); [done|].
    destruct (first_part m ≫= inlineData); [done|]. apply finish_error.
  - destruct (waiting d) as [|m rest]; [done|].
    unfold onmessage_resume. destruct decoded; [|done].
    by rewrite finish_error.
  - done.
Qed.

Lemma stopRecording_error a : error (core (stopRecording a)) = error (core a).
Proof. unfold stopRecording. by destruct (_ && _). Qed.

Lemma error_step a ev :
  error (core (step a ev)) = error (core a)
  ∨ (∃ sid, ev = UpError sid (error (core (step a ev))))
  ∨ error (core (step a ev)) = "Failed to open session."%string.
Proof.
  destruct ev as [sid|sid|sid|sid message|sid reason|sid now m|decoded|src
                 | | | | | |message|pid pcm]; cbn [step].
  - left. by destruct (bool_decide _).
  - destruct (bool_decide _); [by right; right|by left].
  - left. by destruct (_ <? _)%nat.
  - destruct (_ <? _)%nat; [|by left]. right; left. by exists sid.
  - left. by destruct (_ <? _)%nat.
  - left. destruct (_ <? _)%nat; [|done]. apply core_step_error.
  - left. apply core_step_error.
  - left. apply core_step_error.
  - left. unfold reset. by destruct (session a).
  - left. unfold startRecording. by destruct (isRecording a).
  - left. apply stopRecording_error.
  - left. by destruct (resuming a).
  - left. by destruct (requesting a).
  - left. destruct (requesting a); [done|].
    unfold startRecording_denied. by rewrite stopRecording_error.
  - left. destruct (bool_decide _); [|done]. unfold onaudioprocess.
    destruct (negb _); [done|]. by destruct (session a).
Qed.

(** X20.  [render] shows [this.error || this.status], and [error] is
    written only by the [onerror] callback and by a failed connect
    call, never cleared: once an error is set, the status line shows an
    error through every later event, and no status is shown again, as
    long as no [onerror] arrives with an empty message. *)
Theorem error_hides_status (a : App) (evs : list Event) :
  error (core a) ≠ EmptyString →
  Forall (λ ev, ∀ sid, ev ≠ UpError sid EmptyString) evs →
  error (core (foldl step a evs)) ≠ EmptyString
  ∧ display (foldl step a evs) = error (core (foldl step a evs)).
Proof.
  intros Ha Hevs.
  assert (error (core (foldl step a evs)) ≠ EmptyString) as Herr.
  { induction evs as [|ev evs IH] using rev_ind; [done|].
    apply Forall_app in Hevs as [Hevs Hev]. apply Forall_cons in Hev as [Hev _].
    specialize (IH Hevs). rewrite foldl_app. cbn [foldl].
    destruct (error_step (foldl step a evs) ev) as [->|[[sid E]| ->]];
      [done| |done].
    intros Hempty. rewrite Hempty in E. by apply (Hev sid). }
  split; [done|]. unfold display.
  by destruct (error (core (foldl step a evs))).
Qed.

Lemma error_hides_status_witness :
  let a := run 0 [ConnectFail 0] in
  let evs := [ClickStart; Resumed; Granted] in
  error (core (foldl step a evs)) ≠ EmptyString
  ∧ display (foldl step a evs) = error (core (foldl step a evs)).
Proof.
  intros a evs. apply error_hides_status.
  - vm_compute. discriminate.
  - repeat constructor; discriminate.
Defined.

(** ** The recorder *)

(** X21.  When the microphone is refused to a direct client that is not
    recording, the status is set to the error text and the
    [stopRecording] of the [catch] block returns at its guard: the
    status stays [Error: <message>], with [Unknown error] for a
    rejection without message, and [error] is not written. *)
Theorem direct_refused_microphone (a : App) (message : option string) :
  isRecording a = false → mediaStream a = None →
  let a' := foldl step a [ClickStart; Resumed; Denied message] in
  status (core a') = ("Error: " +:+ default "Unknown error" message)%string
  ∧ error (core a') = error (core a)
  ∧ isRecording a' = false ∧ mediaStream a' = None
  ∧ tracks_stopped a' = tracks_stopped a ∧ media a' = media a.
Proof.
  intros Hr Hm a'. subst a'.
  destruct a as [co rec ms sn sp se cn cg cl me th rs rq gr ts pg wi].
  cbn in Hr, Hm. subst rec ms. cbn. done.
Qed.

Lemma direct_refused_microphone_witness :
  status (core (foldl step (init 0) [ClickStart; Resumed; Denied None]))
  = "Error: Unknown error"%string.
Proof.
  destruct (direct_refused_microphone (init 0) None eq_refl eq_refl)
    as (H & _).
  exact H.
Defined.

(** ** Sessions *)

(** X22.  [reset] closes the session and starts a connect call, but the
    field [session] keeps the closed session until that call resolves:
    a recording started in between sends every captured buffer to the
    closed session.  When the call resolves the field holds the new
    session. *)
Theorem reset_keeps_closed_session (a : App) (sid : nat) (pcm : list number) :
  isRecording a = false → session a = Some sid →
  let a' := foldl step a [ClickReset; ClickStart; Resumed; Granted] in
  session a' = Some sid ∧ closed a' = sid :: closed a
  ∧ connecting a' = connecting a ++ [connects a]
  ∧ media (step a' (AudioProcess (granted a) pcm)) = media a ++ [(sid, pcm)]
  ∧ session (step a' (ConnectOk (connects a))) = Some (connects a).
Proof.
  intros Hr Hs a'. subst a'.
  destruct a as [co rec ms sn sp se cn cg cl me th rs rq gr ts pg wi].
  cbn in Hr, Hs. subst rec se. cbn [foldl].
  cbn [step reset session set_closed initSession say set_core set_connects
       set_connecting connects connecting].
  unfold startRecording.
  cbn [isRecording set_resuming resuming startRecording_resumed
       set_requesting say set_core requesting].
  cbn [startRecording_granted granted session closed connecting media wired
       plugged isRecording onaudioprocess negb set_media connects
       set_requesting core].
  rewrite !bool_decide_eq_true_2 by set_solver.
  done.
Qed.

Lemma reset_keeps_closed_session_witness :
  let a := run 0 [ConnectOk 0] in
  let a' := foldl step a [ClickReset; ClickStart; Resumed; Granted] in
  media (step a' (AudioProcess 0 [Fin 1])) = [(0%nat, [Fin 1])]
  ∧ closed a' = [0%nat].
Proof.
  intros a a'.
  destruct (reset_keeps_closed_session a 0 [Fin 1] eq_refl eq_refl)
    as (_ & H2 & _ & H4 & _).
  split; [exact H4|exact H2].
Defined.

Lemma Known_step a ev : Known a → Known (step a ev).
Proof.
  intros [H1 H2 H3].
  assert (∀ a', session a' = session a → connecting a' = connecting a →
                closed a' = closed a → connects a' = connects a → Known a')
    as Hsame.
  { intros a' E1 E2 E3 E4. split; rewrite ?E1, ?E2, ?E3, ?E4; done. }
  destruct ev as [sid|sid|sid|sid message|sid reason|sid now m|decoded|src
                 | | | | | |message|pid pcm]; cbn [step].
  - destruct (bool_decide _) eqn:Hin; [|by apply Hsame].
    apply bool_decide_eq_true in Hin.
    split; cbn [session connecting closed connects set_session set_connecting];
      try done.
    + intros ? [= <-]. by apply H2.
    + intros s [_ Hs]%list_elem_of_filter. by apply H2.
  - destruct (bool_decide _); [|by apply Hsame].
    split; cbn [session connecting closed connects set_core set_connecting];
      try done.
    intros s [_ Hs]%list_elem_of_filter. by apply H2.
  - destruct (_ <? _)%nat; by apply Hsame.
  - destruct (_ <? _)%nat; by apply Hsame.
  - destruct (_ <? _)%nat; by apply Hsame.
  - destruct (_ <? _)%nat; by apply Hsame.
  - by apply Hsame.
  - by apply Hsame.
  - unfold reset.
    destruct (session a) as [sid|] eqn:Hs;
      split; cbn [session connecting closed connects say set_core initSession
                  set_connects set_connecting set_closed]; rewrite ?Hs.
    + intros s [= <-]. specialize (H1 _ eq_refl). lia.
    + intros s [Hin| ->%list_elem_of_singleton]%elem_of_app; [|lia].
      apply H2 in Hin. lia.
    + intros s [->|Hin]%elem_of_cons.
      * specialize (H1 _ eq_refl). lia.
      * apply H3 in Hin. lia.
    + done.
    + intros s [Hin| ->%list_elem_of_singleton]%elem_of_app; [|lia].
      apply H2 in Hin. lia.
    + intros s Hin. apply H3 in Hin. lia.
  - unfold startRecording. destruct (isRecording a); by apply Hsame.
  - unfold stopRecording. destruct (_ && _); by apply Hsame.
  - destruct (resuming a); by apply Hsame.
  - destruct (requesting a); by apply Hsame.
  - destruct (requesting a); [by apply Hsame|].
    unfold startRecording_denied, stopRecording. destruct (_ && _); by apply Hsame.
  - destruct (bool_decide _); [|by apply Hsame]. unfold onaudioprocess.
    destruct (negb _); [by apply Hsame|].
    destruct (session a) eqn:Hs; by apply Hsame.
Qed.

Lemma Known_run now evs : Known (run now evs).
Proof.
  induction evs as [|ev evs IH] using rev_ind.
  - split; cbn.
    + done.
    + intros s ->%list_elem_of_singleton. lia.
    + intros s Hs. by apply not_elem_of_nil in Hs.
  - rewrite direct_run_snoc. by apply Known_step.
Qed.

Lemma stray_step n a ev : stray n a → stray n (step a ev).
Proof.
  intros (H1 & H2 & H3 & H4).
  assert (∀ a', session a' = session a → connecting a' = connecting a →
                closed a' = closed a → connects a' = connects a → stray n a')
    as Hsame.
  { intros a' E1 E2 E3 E4. unfold stray. by rewrite E1, E2, E3, E4. }
  destruct ev as [sid|sid|sid|sid message|sid reason|sid now m|decoded|src
                 | | | | | |message|pid pcm]; cbn [step].
  - destruct (bool_decide _) eqn:Hin; [|by apply Hsame].
    apply bool_decide_eq_true in Hin. unfold stray.
    cbn [session connecting closed connects set_session set_connecting].
    split_and!; try done.
    + intros [_ ?]%list_elem_of_filter. done.
    + intros [= ->]. done.
  - destruct (bool_decide _); [|by apply Hsame]. unfold stray.
    cbn [session connecting closed connects set_core set_connecting].
    split_and!; try done.
    intros [_ ?]%list_elem_of_filter. done.
  - destruct (_ <? _)%nat; by apply Hsame.
  - destruct (_ <? _)%nat; by apply Hsame.
  - destruct (_ <? _)%nat; by apply Hsame.
  - destruct (_ <? _)%nat; by apply Hsame.
  - by apply Hsame.
  - by apply Hsame.
  - unfold reset, stray.
    destruct (session a) as [sid|] eqn:Hs;
      cbn [session connecting closed connects say set_core initSession
           set_connects set_connecting set_closed]; rewrite ?Hs.
    + split_and!; [lia| |by (intros [->|?]%elem_of_cons)|done].
      intros [?| ->%list_elem_of_singleton]%elem_of_app; [done|lia].
    + split_and!; [lia| |done|done].
      intros [?| ->%list_elem_of_singleton]%elem_of_app; [done|lia].
  - unfold startRecording. destruct (isRecording a); by apply Hsame.
  - unfold stopRecording. destruct (_ && _); by apply Hsame.
  - destruct (resuming a); by apply Hsame.
  - destruct (requesting a); by apply Hsame.
  - destruct (requesting a); [by apply Hsame|].
    unfold startRecording_denied, stopRecording. destruct (_ && _); by apply Hsame.
  - destruct (bool_decide _); [|by apply Hsame]. unfold onaudioprocess.
    destruct (negb _); [by apply Hsame|].
    destruct (session a) eqn:Hs; by apply Hsame.
Qed.

Lemma reset_fields a :
  session (reset a) = session a
  ∧ connects (reset a) = S (connects a)
  ∧ connecting (reset a) = connecting a ++ [connects a]
  ∧ closed (reset a) = match session a with
                       | Some s => s :: closed a
                       | None => closed a
                       end.
Proof.
  unfold reset. destruct (session a) eqn:Hs; cbn; split_and!; done.
Qed.

Lemma connect_ok_fields a sid :
  sid ∈ connecting a →
  session (step a (ConnectOk sid)) = Some sid
  ∧ connects (step a (ConnectOk sid)) = connects a
  ∧ connecting (step a (ConnectOk sid)) = filter (λ n, n ≠ sid) (connecting a)
  ∧ closed (step a (ConnectOk sid)) = closed a.
Proof. intros Hin. cbn [step]. by rewrite bool_decide_eq_true_2. Qed.

(** X23.  [reset] closes only the session that the field holds, and a
    connect call that resolves overwrites the field: when a second reset
    is made before the connect call of the first has resolved, both
    calls open a session, the field ends with the second, and the client
    never calls [close()] on the first, whatever happens afterwards. *)
Theorem double_reset_leaks_session (now : Q) (evs later : list Event) :
  let a := run now evs in
  let n := connects a in
  let a' := foldl step a [ClickReset; ClickReset; ConnectOk n; ConnectOk (S n)] in
  session a' = Some (S n) ∧ stray n (foldl step a' later).
Proof.
  intros a n a'.
  assert (session a' = Some (S n) ∧ stray n a') as [Hs Hstray].
  { pose proof (Known_run now evs) as [K1 K2 K3]. fold a in K1, K2, K3.
    fold n in K1, K2, K3.
    assert (n ∉ connecting a) as Hn1 by (intros Hin; apply K2 in Hin; lia).
    assert (n ∉ closed a) as Hn3 by (intros Hin; apply K3 in Hin; lia).
    assert (session a ≠ Some n) as Hn4
      by (intros Hin; apply K1 in Hin; lia).
    subst a'. clearbody a. cbn [foldl].
    change (step a ClickReset) with (reset a).
    destruct (reset_fields a) as (A1 & A2 & A3 & A4). fold n in A2, A3.
    set (a1 := reset a) in *. clearbody a1.
    change (step a1 ClickReset) with (reset a1).
    destruct (reset_fields a1) as (B1 & B2 & B3 & B4).
    rewrite A2 in B2, B3. rewrite A3 in B3. rewrite A1 in B1.
    set (a2 := reset a1) in *. clearbody a2.
    destruct (connect_ok_fields a2 n) as (C1 & C2 & C3 & C4).
    { rewrite B3. set_solver. }
    rewrite B2 in C2. rewrite B3 in C3.
    set (a3 := step a2 (ConnectOk n)) in *. clearbody a3.
    destruct (connect_ok_fields a3 (S n)) as (D1 & D2 & D3 & D4).
    { rewrite C3. apply list_elem_of_filter. split; [lia|set_solver]. }
    rewrite C2 in D2. rewrite C3 in D3.
    set (a4 := step a3 (ConnectOk (S n))) in *. clearbody a4.
    split; [done|]. unfold stray. rewrite D1, D2, D3, D4, C4.
    split_and!.
    - lia.
    - intros [_ [Hc _]%list_elem_of_filter]%list_elem_of_filter. done.
    - rewrite B4, A1, A4.
      destruct (session a) as [s|]; [|done].
      intros [->|[->|Hc]%elem_of_cons]%elem_of_cons; done.
    - intros [=]. lia. }
  split; [done|].
  clear Hs. induction later as [|ev later IH] using rev_ind; [done|].
  rewrite foldl_app. by apply stray_step.
Qed.

(** X24.  Until a connect call has resolved the field [session] is
    undefined: whatever else happens, buffers captured in that time are
    not sent to any session (the capture callback ends with a
    [TypeError]); this lasts for good when the first connect call fails
    and no reset follows. *)
Theorem no_session_no_audio (now : Q) (evs : list Event) :
  Forall (λ ev, ∀ sid, ev ≠ ConnectOk sid) evs →
  session (run now evs) = None ∧ media (run now evs) = [].
Proof.
  intros Hevs. induction evs as [|ev evs IH] using rev_ind; [done|].
  apply Forall_app in Hevs as [Hevs Hev]. apply Forall_cons in Hev as [Hev _].
  destruct (IH Hevs) as [Hs Hm]. rewrite direct_run_snoc.
  set (a := run now evs) in *.
  destruct ev as [sid|sid|sid|sid message|sid reason|sid now' m|decoded|src
                 | | | | | |message|pid pcm]; cbn [step].
  - by destruct (Hev sid).
  - by destruct (bool_decide _).
  - by destruct (_ <? _)%nat.
  - by destruct (_ <? _)%nat.
  - by destruct (_ <? _)%nat.
  - by destruct (_ <? _)%nat.
  - done.
  - done.
  - unfold reset. by rewrite Hs.
  - unfold startRecording. by destruct (isRecording a).
  - unfold stopRecording. by destruct (_ && _).
  - by destruct (resuming a).
  - by destruct (requesting a).
  - destruct (requesting a); [done|].
    unfold startRecording_denied, stopRecording. by destruct (_ && _).
  - destruct (bool_decide _); [|done]. unfold onaudioprocess.
    destruct (negb _); [done|]. by rewrite Hs.
Qed.

Lemma no_session_no_audio_witness :
  media (run 0 [ConnectFail 0; ClickStart; Resumed; Granted;
                AudioProcess 0 [Fin 1]]) = []
  ∧ thrown (run 0 [ConnectFail 0; ClickStart; Resumed; Granted;
                   AudioProcess 0 [Fin 1]]) = 1%nat.
Proof.
  split; [|reflexivity].
  apply (no_session_no_audio 0). repeat constructor; discriminate.
Defined.

End DirectAppFacts.
